(** * Roman numeral parser (rome.c): shallow embedding and properties

    The development follows the layout of [rome.c]: the conversion helpers,
    the token validators, the tokenizer [consume_next_token] and the entry
    point [parse_roman_number].

    Conventions.
    - A [char const*] is the list of the characters it points to, up to but
      excluding the terminating NUL; reading at the end of the list yields
      NUL.  Advancing the pointer drops characters from the front.
    - An [int] is a [Z] kept in the 32-bit two's complement range by
      [to_int], applied wherever the C code computes or converts an [int]:
      the products and sums of [token_value] and of the tally (signed
      overflow, which C leaves undefined and the usual compilers wrap), and
      the conversion [(int)(it - str)] of a run length.
    - [struct result] is the sum [result]: [success] carries the value and
      [errorf] the formatted message, kept as the format (the constructor of
      [error]) together with its arguments.
    - [assert] is compiled in: a failed assertion ends the call. *)

From Stdlib Require Import ZArith Ascii String DecimalString Bool Lia List.
Import ListNotations.

Local Open Scope Z_scope.

(** ** Machine integers and C strings *)

Module CInt.

Definition int_min : Z := -2147483648.
Definition int_max : Z := 2147483647.

(** Reduction of a mathematical integer to the value an [int] holds. *)
Definition to_int (z : Z) : Z := (z + 2147483648) mod 4294967296 - 2147483648.

Definition in_range (z : Z) : Prop := int_min <= z <= int_max.

End CInt.
Export CInt.

Definition cstring : Type := list ascii.

Definition NUL : ascii := Ascii.zero.
Definition LF : ascii := "010"%char.

(** [str[i]]: the character at offset [i], NUL at the end of the string. *)
Definition char_at (str : cstring) (i : nat) : ascii := nth i str NUL.

(** [str + n]: defined while the result stays inside the string (the
    terminator included); anything else is undefined in C. *)
Definition ptr_add (str : cstring) (n : Z) : option cstring :=
  if (0 <=? n) && (n <=? Z.of_nat (length str))
  then Some (skipn (Z.to_nat n) str)
  else None.

Definition cstr (s : string) : cstring := list_ascii_of_string s.

(** ** result.h *)

(** One constructor for each format string handed to [errorf] in rome.c. *)
Inductive error : Type :=
| EmptyInput                                   (* "input is empty" *)
| EndOfInput                                   (* "EOF" *)
| InvalidCharacter (c : ascii)                 (* "invalid character: %c" *)
| InvalidPair (c0 c1 : ascii)                  (* "invalid pair: %c%c" *)
| InvalidRepeatCount (c : ascii) (n : Z)       (* "character %c cannot appear %d times in a row" *)
| InvalidSequence (buff1 buff2 : option cstring). (* " %s cannot be followed by %s" *)

Inductive result (A : Type) : Type :=
| success (value : A)
| errorf (e : error).
Arguments success {A} value.
Arguments errorf {A} e.

(** ** Tokens *)

Inductive token : Type :=
| PAIR (prefix suffix : Z)
| REPEAT (digit count : Z).

(** ** Conversion helpers *)

Definition parse_roman_character (c : ascii) : option Z :=
  if (c =? "I")%char then Some 1
  else if (c =? "V")%char then Some 5
  else if (c =? "X")%char then Some 10
  else if (c =? "L")%char then Some 50
  else if (c =? "C")%char then Some 100
  else if (c =? "D")%char then Some 500
  else if (c =? "M")%char then Some 1000
  else None.

Definition digit_to_roman (d : Z) : ascii :=
  if d =? 1 then "I"
  else if d =? 5 then "V"
  else if d =? 10 then "X"
  else if d =? 50 then "L"
  else if d =? 100 then "C"
  else if d =? 500 then "D"
  else if d =? 1000 then "M"
  else "?".

(** ** Token validators and value *)

Definition token_value (t : token) : Z :=
  match t with
  | REPEAT digit count => to_int (digit * count)
  | PAIR prefix suffix => to_int (suffix - prefix)
  end.

Definition valid_pair (prefix suffix : Z) : bool :=
  if (suffix =? 5) || (suffix =? 10) then prefix =? 1
  else if (suffix =? 50) || (suffix =? 100) then prefix =? 10
  else if (suffix =? 500) || (suffix =? 1000) then prefix =? 100
  else false.

Definition valid_repeats (main count : Z) : bool :=
  if count =? 0 then false
  else if (main =? 5) || (main =? 50) || (main =? 500) then count =? 1
  else if (main =? 1) || (main =? 10) || (main =? 100) then count <? 4
  else if main =? 1000 then true
  else false.

Definition valid_sequence (first second : token) : bool :=
  let first_prefix := match first with PAIR prefix _ => prefix | REPEAT digit _ => digit end in
  if (first_prefix =? 5) || (first_prefix =? 50) || (first_prefix =? 500) then
    let second_suffix := match second with PAIR _ suffix => suffix | REPEAT digit _ => digit end in
    first_prefix >? second_suffix
  else
    let second_prefix := match second with PAIR prefix _ => prefix | REPEAT digit _ => digit end in
    first_prefix >? second_prefix.

(** [sprint_token (len, t)]: the text written to the buffer, or [None] when
    the function returns [false] and leaves the buffer untouched.  (A repeat
    with a negative count would write in front of the buffer; the entry point
    never prints such a token, it stops at the consumed count before.) *)
Definition sprint_token (len : Z) (t : token) : option cstring :=
  match t with
  | REPEAT digit count =>
      if len <? to_int (count + 1) then None
      else Some (repeat (digit_to_roman digit) (Z.to_nat count))
  | PAIR prefix suffix =>
      if len <? 3 then None
      else Some [digit_to_roman prefix; digit_to_roman suffix]
  end.

(** ** Tokenizer *)

Definition is_terminator (c : ascii) : bool := ((c =? NUL) || (c =? LF))%char.

(** The scan of lines 146-151: [it] starts at [str + 2] and advances while
    it points to a copy of [*str]; [n] is [it - str].  At the end of the list
    [*it] is the terminating NUL, which differs from [*str] (the caller has
    checked that [*str] is not NUL). *)
Fixpoint scan_repeats (c : ascii) (it : cstring) (n : nat) : result nat :=
  match it with
  | [] => success n
  | x :: it' =>
      if (c =? x)%char then
        match parse_roman_character c with
        | None => errorf (InvalidCharacter c)
        | Some _ => scan_repeats c it' (S n)
        end
      else success n
  end.

(** Returns the count of characters consumed together with the token written
    through the out-parameter [t]. *)
Definition consume_next_token (str : cstring) : result (Z * token) :=
  if is_terminator (char_at str 0) then errorf EndOfInput
  else
    match parse_roman_character (char_at str 0) with
    | None => errorf (InvalidCharacter (char_at str 0))
    | Some first =>
        if is_terminator (char_at str 1) then success (1, REPEAT first 1)
        else
          match parse_roman_character (char_at str 1) with
          | None => errorf (InvalidCharacter (char_at str 0))
          | Some second =>
              if first <? second then
                if negb (valid_pair first second)
                then errorf (InvalidPair (char_at str 0) (char_at str 1))
                else success (2, PAIR first second)
              else if first >? second then success (1, REPEAT first 1)
              else
                match scan_repeats (char_at str 0) (skipn 2 str) 2 with
                | errorf e => errorf e
                | success it =>
                    let num_repeats := to_int (Z.of_nat it) in
                    if negb (valid_repeats first num_repeats)
                    then errorf (InvalidRepeatCount (char_at str 0) num_repeats)
                    else success (num_repeats, REPEAT first num_repeats)
                end
          end
    end.

(** ** Entry point *)

(** What a call of [parse_roman_number] can do besides returning. *)
Inductive outcome : Type :=
| Returns (r : result Z)
| AssertionFailure      (* [assert(res.value > 0)] fails *)
| OutOfBounds.          (* [str] leaves the string: undefined behaviour *)

(** The [while] loop of lines 84-102.  [None] means that [fuel] iterations
    were not enough. *)
Fixpoint parse_loop (fuel : nat) (str : cstring) (prev : token) (tally : Z)
  : option outcome :=
  match fuel with
  | O => None
  | S fuel' =>
      if is_terminator (char_at str 0) then Some (Returns (success tally))
      else
        match consume_next_token str with
        | errorf e => Some (Returns (errorf e))
        | success (value, next) =>
            if negb (value >? 0) then Some AssertionFailure
            else if negb (valid_sequence prev next) then
              Some (Returns (errorf (InvalidSequence (sprint_token 32 prev)
                                                     (sprint_token 32 next))))
            else
              match ptr_add str value with
              | None => Some OutOfBounds
              | Some str' =>
                  parse_loop fuel' str' next (to_int (tally + token_value next))
              end
        end
  end.

Definition parse_roman_number (str : cstring) : option outcome :=
  if (char_at str 0 =? NUL)%char then Some (Returns (errorf EmptyInput))
  else
    match consume_next_token str with
    | errorf e => Some (Returns (errorf e))
    | success (value, prev) =>
        match ptr_add str value with
        | None => Some OutOfBounds
        | Some str' =>
            parse_loop (S (length str')) str' prev (to_int (0 + token_value prev))
        end
    end.

(** ** Definitions used to state the properties *)

Definition roman_digit (d : Z) : Prop :=
  d = 1 \/ d = 5 \/ d = 10 \/ d = 50 \/ d = 100 \/ d = 500 \/ d = 1000.

(** The shapes of a successful tokenizer call, read off the four [success]
    exits of [consume_next_token]: the last character of the line, a lonely
    character, a pair, and a run of [k >= 2] copies of one character. *)
Inductive tokenizes : cstring -> Z -> token -> Prop :=
| tok_last c d rest :
    parse_roman_character c = Some d ->
    is_terminator (char_at rest 0) = true ->
    tokenizes (c :: rest) 1 (REPEAT d 1)
| tok_lonely c d c1 d1 rest :
    parse_roman_character c = Some d ->
    parse_roman_character c1 = Some d1 ->
    d1 < d ->
    tokenizes (c :: c1 :: rest) 1 (REPEAT d 1)
| tok_pair c d c1 d1 rest :
    parse_roman_character c = Some d ->
    parse_roman_character c1 = Some d1 ->
    d < d1 ->
    valid_pair d d1 = true ->
    tokenizes (c :: c1 :: rest) 2 (PAIR d d1)
| tok_run c d k rest :
    parse_roman_character c = Some d ->
    (2 <= k)%nat ->
    char_at rest 0 <> c ->
    valid_repeats d (to_int (Z.of_nat k)) = true ->
    tokenizes (repeat c k ++ rest) (to_int (Z.of_nat k))
              (REPEAT d (to_int (Z.of_nat k))).

(** The legal-pairs table as the specification lists it:
    1 -> {5, 10}, 10 -> {50, 100}, 100 -> {500, 1000}. *)
Definition legal_pair (prefix suffix : Z) : bool :=
  ((prefix =? 1) && ((suffix =? 5) || (suffix =? 10)))
  || ((prefix =? 10) && ((suffix =? 50) || (suffix =? 100)))
  || ((prefix =? 100) && ((suffix =? 500) || (suffix =? 1000))).

(** The legal-repeats table as the specification lists it: V, L, D once;
    I, X, C one to three times; M any positive number of times. *)
Definition legal_repeat (digit count : Z) : bool :=
  (((digit =? 5) || (digit =? 50) || (digit =? 500)) && (count =? 1))
  || (((digit =? 1) || (digit =? 10) || (digit =? 100))
      && (1 <=? count) && (count <=? 3))
  || ((digit =? 1000) && (1 <=? count)).

(** Prefix and suffix digit of a token, as the sequence rule of the
    specification names them. *)
Definition prefix_digit (t : token) : Z :=
  match t with PAIR prefix _ => prefix | REPEAT digit _ => digit end.

Definition suffix_digit (t : token) : Z :=
  match t with PAIR _ suffix => suffix | REPEAT digit _ => digit end.

Definition V_L_D (d : Z) : Prop := d = 5 \/ d = 50 \/ d = 500.

(** What may follow a single character for it to be tokenized on its own:
    the end of the line or a smaller roman digit. *)
Definition lonely_before (d : Z) (rest : cstring) : Prop :=
  is_terminator (char_at rest 0) = true
  \/ exists d1, parse_roman_character (char_at rest 0) = Some d1 /\ d1 < d.

(** No line terminator and no NUL among the characters. *)
Definition within_line (p : cstring) : Prop :=
  Forall (fun c => is_terminator c = false) p.

(** Reference renderer, the standard of comparison for the round trip
    (rome.c only parses): the canonical numeral of [v], one decimal position
    at a time, with the subtractive forms for 4 and 9. *)
Definition render_digit (one five ten : ascii) (d : nat) : cstring :=
  match d with
  | 0 => []
  | 1 => [one]
  | 2 => [one; one]
  | 3 => [one; one; one]
  | 4 => [one; five]
  | 5 => [five]
  | 6 => [five; one]
  | 7 => [five; one; one]
  | 8 => [five; one; one; one]
  | _ => [one; ten]
  end%nat.

Definition to_roman (v : nat) : cstring :=
  (repeat "M"%char (v / 1000)
   ++ render_digit "C" "D" "M" ((v / 100) mod 10)
   ++ render_digit "X" "L" "C" ((v / 10) mod 10)
   ++ render_digit "I" "V" "X" (v mod 10))%nat.

(** The text [errorf] leaves in the 255-byte message buffer; [None] when a
    [%s] argument is a buffer that [sprint_token] did not fill. *)
Definition format_int (n : Z) : string := NilEmpty.string_of_int (Z.to_int n).

Definition vsnprintf (max_size : nat) (text : string) : string :=
  substring 0 (max_size - 1) text.

Definition error_message (e : error) : option string :=
  option_map (vsnprintf 255)
    match e with
    | EmptyInput => Some "input is empty"
    | EndOfInput => Some "EOF"
    | InvalidCharacter c => Some ("invalid character: " ++ String c "")
    | InvalidPair c0 c1 => Some ("invalid pair: " ++ String c0 (String c1 ""))
    | InvalidRepeatCount c n =>
        Some ("character " ++ String c ""
              ++ " cannot appear " ++ format_int n ++ " times in a row")
    | InvalidSequence (Some buff1) (Some buff2) =>
        Some (" " ++ string_of_list_ascii buff1
              ++ " cannot be followed by " ++ string_of_list_ascii buff2)
    | InvalidSequence _ _ => None
    end%string.

(** Shifting the tally a loop starts from shifts the value it returns. *)
Definition shift_outcome (a : Z) (o : outcome) : outcome :=
  match o with
  | Returns (success v) => Returns (success (to_int (a + v)))
  | _ => o
  end.

(** Decidable form of "the call returns the value [v]". *)
Definition returns_value (o : option outcome) (v : Z) : bool :=
  match o with
  | Some (Returns (success x)) => x =? v
  | _ => false
  end.

Definition roundtrips (v : nat) : bool :=
  returns_value (parse_roman_number (to_roman v)) (Z.of_nat v)
  && returns_value (parse_roman_number (to_roman v ++ [LF])) (Z.of_nat v).

(** ** Tokens as text *)

(** The characters of [str] in front of its first terminator. *)
Fixpoint line_of (str : cstring) : cstring :=
  match str with
  | [] => []
  | c :: str' => if is_terminator c then [] else c :: line_of str'
  end.

(** The tokens the validators let through: a pair of roman digits accepted by
    [valid_pair], or a roman digit with a positive count accepted by
    [valid_repeats]. *)
Definition legal_token (t : token) : Prop :=
  match t with
  | PAIR prefix suffix =>
      roman_digit prefix /\ roman_digit suffix /\ valid_pair prefix suffix = true
  | REPEAT digit count =>
      roman_digit digit /\ 0 < count /\ valid_repeats digit count = true
  end.

(** The letters of a token, as [sprint_token] writes them. *)
Definition token_text (t : token) : cstring :=
  match t with
  | REPEAT digit count => repeat (digit_to_roman digit) (Z.to_nat count)
  | PAIR prefix suffix => [digit_to_roman prefix; digit_to_roman suffix]
  end.

(** The legal tokens other than the runs of M. *)
Definition short_tokens : list token :=
  [ REPEAT 1 1; REPEAT 1 2; REPEAT 1 3; PAIR 1 5; PAIR 1 10; REPEAT 5 1;
    REPEAT 10 1; REPEAT 10 2; REPEAT 10 3; PAIR 10 50; PAIR 10 100; REPEAT 50 1;
    REPEAT 100 1; REPEAT 100 2; REPEAT 100 3; PAIR 100 500; PAIR 100 1000;
    REPEAT 500 1 ].

(** What can still follow a token is worth less than this: the prefix digit,
    and four fifths of it after V, L or D. *)
Definition remainder_limit (t : token) : Z :=
  let p := prefix_digit t in
  if p =? 5 then 4 else if p =? 50 then 40 else if p =? 500 then 400 else p.

Fixpoint cstring_eqb (a b : cstring) : bool :=
  match a, b with
  | [], [] => true
  | x :: a', y :: b' => (x =? y)%char && cstring_eqb a' b'
  | _, _ => false
  end.

(** For one token: its letters in front of the numeral of any smaller
    remainder spell the numeral of the sum. *)
Definition spells_sum (t : token) : bool :=
  forallb (fun r => cstring_eqb (token_text t ++ to_roman r)
                                (to_roman (Z.to_nat (token_value t) + r)))
          (seq 0 (Z.to_nat (remainder_limit t))).

(** The thirteen kinds of token in the comment of [valid_sequence], and the
    kinds the comment lets follow each of them. *)
Inductive shape : Type :=
| I_run | IV | IX | V | X_run | XL | XC | L | C_run | CD | CM | D | M_run.

Definition shape_of (t : token) : option shape :=
  match t with
  | REPEAT 1 _ => Some I_run
  | PAIR 1 5 => Some IV
  | PAIR 1 10 => Some IX
  | REPEAT 5 _ => Some V
  | REPEAT 10 _ => Some X_run
  | PAIR 10 50 => Some XL
  | PAIR 10 100 => Some XC
  | REPEAT 50 _ => Some L
  | REPEAT 100 _ => Some C_run
  | PAIR 100 500 => Some CD
  | PAIR 100 1000 => Some CM
  | REPEAT 500 _ => Some D
  | REPEAT 1000 _ => Some M_run
  | _ => None
  end.

Definition followers (s : shape) : list shape :=
  match s with
  | I_run | IV | IX => []
  | V => [I_run]
  | X_run | XL | XC => [I_run; IV; V; IX]
  | L => [I_run; IV; V; IX; X_run]
  | C_run | CD | CM => [I_run; IV; V; IX; X_run; XL; L; XC]
  | D => [I_run; IV; V; IX; X_run; XL; L; XC; C_run]
  | M_run => [I_run; IV; V; IX; X_run; XL; L; XC; C_run; CD; D; CM]
  end.

Definition shape_eqb (a b : shape) : bool :=
  match a, b with
  | I_run, I_run | IV, IV | IX, IX | V, V | X_run, X_run | XL, XL | XC, XC
  | L, L | C_run, C_run | CD, CD | CM, CM | D, D | M_run, M_run => true
  | _, _ => false
  end.

Definition may_follow (first second : token) : bool :=
  match shape_of first, shape_of second with
  | Some s1, Some s2 => existsb (shape_eqb s2) (followers s1)
  | _, _ => false
  end.

(** For one remainder below 1000: its numeral parses back to it (or is empty
    for 0), does not start with M, is worth at most 1000 per letter, and has
    at most twelve letters, none of them a terminator. *)
Definition remainder_checks (r : nat) : bool :=
  (match r with
   | O => cstring_eqb (to_roman r) []
   | _ => returns_value (parse_roman_number (to_roman r)) (Z.of_nat r)
   end)
  && negb (char_at (to_roman r) 0 =? "M")%char
  && (Z.of_nat r <=? 1000 * Z.of_nat (length (to_roman r)))
  && (length (to_roman r) <=? 12)%nat
  && forallb (fun c => negb (is_terminator c)) (to_roman r).

(** ** main.c *)

(** The standard input is the list of the characters still to be read and
    the standard output the list of the characters written so far.
    [fgets (buff, size, stdin)] stores at most [size - 1] characters and stops
    behind a newline; it returns NULL ([None]) when the input is exhausted
    before a character was read.  The result is the buffer and what is left
    of the input. *)
Fixpoint fgets_read (n : nat) (stdin : list ascii) : cstring * list ascii :=
  match n with
  | O => ([], stdin)
  | S n' =>
      match stdin with
      | [] => ([], [])
      | c :: stdin' =>
          if (c =? LF)%char then ([c], stdin')
          else let '(buff, rest) := fgets_read n' stdin' in (c :: buff, rest)
      end
  end.

Definition fgets (size : nat) (stdin : list ascii)
  : option (cstring * list ascii) :=
  match stdin with
  | [] => None
  | _ :: _ => Some (fgets_read (size - 1) stdin)
  end.

(** How a run of the program ends, with the output written until then. *)
Inductive execution : Type :=
| Exits (stdout : list ascii)                 (* [main] leaves its loop *)
| AssertionAborts (stdout : list ascii)       (* the parser's assertion fails *)
| LeavesString (stdout : list ascii)          (* the parser's cursor leaves the buffer *)
| PrintsUnwrittenBuffer (stdout : list ascii).
    (* the error message reads a buffer that [sprint_token] did not fill *)

Definition prompt : list ascii := cstr "Write a roman numeral: ".

(** The line printed for a result, and for an error message. *)
Definition result_line (value : Z) : list ascii :=
  cstr "Result: " ++ cstr (format_int value) ++ [LF].

Definition invalid_line (message : string) : list ascii :=
  cstr "Invalid input: " ++ cstr message ++ [LF].

(** The [while (true)] loop of [main]; [None] when [fuel] iterations were not
    enough. *)
Fixpoint main_loop (fuel : nat) (stdin stdout : list ascii) : option execution :=
  match fuel with
  | O => None
  | S fuel' =>
      let stdout := stdout ++ prompt in
      match fgets 255 stdin with
      | None => Some (Exits stdout)
      | Some (buff, stdin') =>
          match parse_roman_number buff with
          | None => None
          | Some AssertionFailure => Some (AssertionAborts stdout)
          | Some OutOfBounds => Some (LeavesString stdout)
          | Some (Returns (errorf e)) =>
              match error_message e with
              | None => Some (PrintsUnwrittenBuffer stdout)
              | Some message =>
                  main_loop fuel' stdin' (stdout ++ invalid_line message)
              end
          | Some (Returns (success value)) =>
              main_loop fuel' stdin' (stdout ++ result_line value)
          end
      end
  end.

Definition main (stdin : list ascii) : option execution :=
  main_loop (S (length stdin)) stdin [].

(** Output written in front of a run. *)
Definition prepend (text : list ascii) (e : execution) : execution :=
  match e with
  | Exits out => Exits (text ++ out)
  | AssertionAborts out => AssertionAborts (text ++ out)
  | LeavesString out => LeavesString (text ++ out)
  | PrintsUnwrittenBuffer out => PrintsUnwrittenBuffer (text ++ out)
  end.

(** The three ways [fgets] cuts a buffer off the input: a line of at most
    253 characters with its newline, 254 characters without a newline, or
    the unterminated end of the input. *)
Definition first_buffer (buff rest : list ascii) : Prop :=
  (exists line, buff = line ++ [LF] /\ ~ In LF line /\ (length line <= 253)%nat)
  \/ (~ In LF buff /\ length buff = 254%nat)
  \/ (~ In LF buff /\ buff <> [] /\ (length buff <= 254)%nat /\ rest = []).

(** The text of an error message before [vsnprintf] cuts it to the size of
    the message buffer. *)
Definition error_text (e : error) : option string :=
  match e with
  | EmptyInput => Some "input is empty"
  | EndOfInput => Some "EOF"
  | InvalidCharacter c => Some ("invalid character: " ++ String c "")
  | InvalidPair c0 c1 => Some ("invalid pair: " ++ String c0 (String c1 ""))
  | InvalidRepeatCount c n =>
      Some ("character " ++ String c ""
            ++ " cannot appear " ++ format_int n ++ " times in a row")
  | InvalidSequence (Some buff1) (Some buff2) =>
      Some (" " ++ string_of_list_ascii buff1
            ++ " cannot be followed by " ++ string_of_list_ascii buff2)
  | InvalidSequence _ _ => None
  end%string.

(** The arguments an error can carry when the input has at most 254
    characters: a count up to 254, token texts up to 31 characters. *)
Definition short_error (e : error) : Prop :=
  match e with
  | InvalidRepeatCount _ n => 0 <= n <= 254
  | InvalidSequence buff1 buff2 =>
      (forall text, buff1 = Some text -> (length text <= 31)%nat)
      /\ (forall text, buff2 = Some text -> (length text <= 31)%nat)
  | _ => True
  end.

Definition count_is_short (n : nat) : bool :=
  (String.length (format_int (Z.of_nat n)) <=? 3)%nat.

(** ** Scenarios of the specification *)

Example parse_MMXXIII :
  parse_roman_number (cstr "MMXXIII") = Some (Returns (success 2023)).
Proof. reflexivity. Qed.

Example parse_MCMXCIX :
  parse_roman_number (cstr "MCMXCIX") = Some (Returns (success 1999)).
Proof. reflexivity. Qed.

Example parse_IV :
  parse_roman_number (cstr "IV") = Some (Returns (success 4)).
Proof. reflexivity. Qed.

Example parse_IIII :
  parse_roman_number (cstr "IIII") = Some (Returns (errorf (InvalidRepeatCount "I" 4))).
Proof. reflexivity. Qed.

Example parse_LL :
  parse_roman_number (cstr "LL") = Some (Returns (errorf (InvalidRepeatCount "L" 2))).
Proof. reflexivity. Qed.

(** ** Machine integers: basic facts *)

Lemma to_int_id (z : Z) : in_range z -> to_int z = z.
Proof.
  unfold in_range, int_min, int_max, to_int. intros H.
  rewrite Z.mod_small; lia.
Qed.

Lemma to_int_range (z : Z) : in_range (to_int z).
Proof.
  unfold in_range, int_min, int_max, to_int.
  pose proof (Z.mod_pos_bound (z + 2147483648) 4294967296). lia.
Qed.

(** A conversion that comes out positive never exceeds the converted
    (non-negative) number. *)
Lemma to_int_pos_le (z : Z) : 0 <= z -> 0 < to_int z -> to_int z <= z.
Proof.
  unfold to_int. intros Hz Hpos.
  pose proof (Z.mod_le (z + 2147483648) 4294967296). lia.
Qed.

(** ** The seven roman digits *)

Ltac roman_cases H :=
  unfold parse_roman_character in H;
  repeat match type of H with
         | context [(?a =? ?b)%char] => destruct (Ascii.eqb_spec a b); [subst a|]
         end;
  try discriminate H; try (injection H as H; try subst).

Lemma parse_roman_character_digit c d :
  parse_roman_character c = Some d -> roman_digit d.
Proof. intros H. unfold roman_digit. roman_cases H; lia. Qed.

Lemma parse_roman_character_not_terminator c d :
  parse_roman_character c = Some d -> is_terminator c = false.
Proof. intros H. roman_cases H; reflexivity. Qed.

Lemma parse_roman_character_inj c1 c2 d :
  parse_roman_character c1 = Some d -> parse_roman_character c2 = Some d -> c1 = c2.
Proof. intros H1 H2. roman_cases H1; roman_cases H2; reflexivity || discriminate. Qed.

Lemma digit_to_roman_parse c d :
  parse_roman_character c = Some d -> digit_to_roman d = c.
Proof. intros H. roman_cases H; reflexivity. Qed.

Lemma parse_digit_to_roman d :
  roman_digit d -> parse_roman_character (digit_to_roman d) = Some d.
Proof. unfold roman_digit. intros H. repeat destruct H as [H|H]; subst; reflexivity. Qed.

(** ** The tokenizer, relationally *)

Lemma char_at_cons0 c (s : cstring) : char_at (c :: s) 0 = c.
Proof. reflexivity. Qed.

Lemma char_at_cons1 c c1 (s : cstring) : char_at (c :: c1 :: s) 1 = c1.
Proof. reflexivity. Qed.

Lemma char_at_cons1_tail c (s : cstring) : char_at (c :: s) 1 = char_at s 0.
Proof. destruct s; reflexivity. Qed.

Lemma scan_repeats_run c d k rest n :
  parse_roman_character c = Some d ->
  char_at rest 0 <> c ->
  scan_repeats c (repeat c k ++ rest) n = success (n + k)%nat.
Proof.
  intros Hc Hrest. revert n.
  induction k as [|k IH]; intros n; simpl.
  - rewrite Nat.add_0_r. destruct rest as [|x rest]; [reflexivity|].
    simpl. destruct (Ascii.eqb_spec c x) as [->|_]; [|reflexivity].
    now elim Hrest.
  - rewrite Ascii.eqb_refl, Hc, IH. f_equal. lia.
Qed.

(** Every string splits into its leading run of [c] and a remainder that
    does not start with [c]. *)
Lemma leading_run c (s : cstring) :
  c <> NUL ->
  exists k rest, s = repeat c k ++ rest /\ char_at rest 0 <> c.
Proof.
  intros Hc. induction s as [|x s (k & rest & -> & Hrest)].
  - exists 0%nat, []. split; [reflexivity|]. cbn. congruence.
  - destruct (Ascii.eqb_spec x c) as [->|Hx].
    + exists (S k), rest. split; [reflexivity|exact Hrest].
    + exists 0%nat, (x :: repeat c k ++ rest). split; [reflexivity|exact Hx].
Qed.

Lemma roman_not_NUL c d : parse_roman_character c = Some d -> c <> NUL.
Proof. intros H ->. discriminate H. Qed.

Lemma consume_next_token_complete str n t :
  tokenizes str n t -> consume_next_token str = success (n, t).
Proof.
  intros H. destruct H as [c d rest Hc Hend | c d c1 d1 rest Hc Hc1 Hlt
                          | c d c1 d1 rest Hc Hc1 Hlt Hvalid
                          | c d k rest Hc Hk Hrest Hvalid];
    unfold consume_next_token.
  - rewrite char_at_cons0, char_at_cons1_tail,
      (parse_roman_character_not_terminator _ _ Hc), Hc, Hend. reflexivity.
  - rewrite char_at_cons0, char_at_cons1,
      (parse_roman_character_not_terminator _ _ Hc), Hc,
      (parse_roman_character_not_terminator _ _ Hc1), Hc1.
    destruct (Z.ltb_spec d d1); [lia|].
    destruct (Z.gtb_spec d d1); [reflexivity|lia].
  - rewrite char_at_cons0, char_at_cons1,
      (parse_roman_character_not_terminator _ _ Hc), Hc,
      (parse_roman_character_not_terminator _ _ Hc1), Hc1.
    destruct (Z.ltb_spec d d1); [|lia]. rewrite Hvalid. reflexivity.
  - destruct k as [|[|k]]; try lia. cbn [repeat app].
    rewrite char_at_cons0, char_at_cons1,
      (parse_roman_character_not_terminator _ _ Hc), Hc.
    rewrite Z.ltb_irrefl. destruct (Z.gtb_spec d d); [lia|].
    cbn [skipn]. rewrite (scan_repeats_run _ _ _ _ _ Hc Hrest).
    change (2 + k)%nat with (S (S k)). rewrite Hvalid. reflexivity.
Qed.

Lemma consume_next_token_sound str n t :
  consume_next_token str = success (n, t) -> tokenizes str n t.
Proof.
  unfold consume_next_token. intros H.
  destruct str as [|c str]; [discriminate H|].
  rewrite char_at_cons0 in H.
  destruct (is_terminator c) eqn:Hterm; [discriminate H|].
  destruct (parse_roman_character c) as [d|] eqn:Hc; [|discriminate H].
  destruct (is_terminator (char_at (c :: str) 1)) eqn:Hterm1.
  - injection H as <- <-. apply tok_last; [exact Hc|].
    now rewrite <- char_at_cons1_tail with (c := c).
  - destruct str as [|c1 str]; [discriminate Hterm1|].
    rewrite char_at_cons1 in H, Hterm1.
    destruct (parse_roman_character c1) as [d1|] eqn:Hc1; [|discriminate H].
    destruct (Z.ltb_spec d d1) as [Hlt|Hge].
    + destruct (valid_pair d d1) eqn:Hvalid; [|discriminate H].
      injection H as <- <-. now apply tok_pair with (c := c) (c1 := c1).
    + destruct (Z.gtb_spec d d1) as [Hgt|Hle].
      * injection H as <- <-. apply tok_lonely with (d1 := d1); auto; lia.
      * assert (d1 = d) by lia. subst d1.
        assert (c1 = c) by (eapply parse_roman_character_inj; eauto). subst c1.
        cbn [skipn] in H.
        destruct (leading_run c str (roman_not_NUL _ _ Hc)) as (k & rest & -> & Hrest).
        rewrite (scan_repeats_run _ _ _ _ _ Hc Hrest) in H.
        destruct (valid_repeats d (to_int (Z.of_nat (2 + k)))) eqn:Hvalid;
          [|discriminate H].
        injection H as <- <-.
        change (c :: c :: repeat c k ++ rest) with (repeat c (2 + k) ++ rest).
        apply tok_run; auto. lia.
Qed.

Lemma consume_next_token_iff str n t :
  consume_next_token str = success (n, t) <-> tokenizes str n t.
Proof.
  split; [apply consume_next_token_sound | apply consume_next_token_complete].
Qed.

(** ** Validators against the tables of the specification *)

Lemma valid_pair_legal d d1 :
  roman_digit d -> roman_digit d1 -> valid_pair d d1 = legal_pair d d1.
Proof.
  unfold roman_digit. intros H H1.
  repeat destruct H as [H|H]; repeat destruct H1 as [H1|H1]; subst; reflexivity.
Qed.

Lemma valid_repeats_legal d n :
  roman_digit d -> 0 <= n -> valid_repeats d n = legal_repeat d n.
Proof.
  unfold roman_digit, valid_repeats, legal_repeat. intros H Hn.
  destruct (Z.eqb_spec n 0) as [->|Hn0].
  - repeat destruct H as [H|H]; subst; reflexivity.
  - assert (E : (1 <=? n) = true) by (apply Z.leb_le; lia).
    repeat destruct H as [H|H]; subst; cbn; rewrite ?E; cbn;
      try reflexivity; try (destruct (Z.leb_spec n 3), (Z.ltb_spec n 4); reflexivity || lia).
Qed.

(** C2.  The sequence validator accepts a pair of tokens exactly when the
    prefix digit of the first exceeds the suffix digit of the second if the
    first's prefix is 5, 50 or 500, and exceeds the prefix digit of the second
    otherwise; for a roman digit, "otherwise" means 1, 10, 100 or 1000. *)
Theorem valid_sequence_rule (first second : token) :
  (valid_sequence first second = true <->
     (V_L_D (prefix_digit first) /\ prefix_digit first > suffix_digit second)
     \/ (~ V_L_D (prefix_digit first) /\ prefix_digit first > prefix_digit second))
  /\ (roman_digit (prefix_digit first) ->
      (~ V_L_D (prefix_digit first) <->
         prefix_digit first = 1 \/ prefix_digit first = 10
         \/ prefix_digit first = 100 \/ prefix_digit first = 1000)).
Proof.
  split.
  - unfold valid_sequence, V_L_D.
    fold (prefix_digit first) (suffix_digit second) (prefix_digit second).
    set (p := prefix_digit first).
    destruct (Z.eqb_spec p 5), (Z.eqb_spec p 50), (Z.eqb_spec p 500); cbn [orb];
      rewrite Z.gtb_gt; intuition lia.
  - unfold roman_digit, V_L_D. lia.
Qed.

(** ** Pairs and lonely characters *)

(** C4.  When the input starts with two roman digits of values [first] and
    [second]: if [first < second] the tokenizer emits the pair and consumes
    two characters when the legal-pairs table lists it, and fails with the
    invalid-pair error exactly when the table does not; if [first > second]
    it emits a repeat of [first] with count 1 and consumes one character. *)
Theorem consume_two_digits c0 c1 rest first second :
  parse_roman_character c0 = Some first ->
  parse_roman_character c1 = Some second ->
  (first < second ->
     (legal_pair first second = true ->
        consume_next_token (c0 :: c1 :: rest) = success (2, PAIR first second))
     /\ (legal_pair first second = false ->
        consume_next_token (c0 :: c1 :: rest) = errorf (InvalidPair c0 c1))
     /\ (forall e, consume_next_token (c0 :: c1 :: rest) = errorf e ->
                   e = InvalidPair c0 c1 /\ legal_pair first second = false))
  /\ (first > second ->
      consume_next_token (c0 :: c1 :: rest) = success (1, REPEAT first 1)).
Proof.
  intros H0 H1.
  pose proof (parse_roman_character_digit _ _ H0) as D0.
  pose proof (parse_roman_character_digit _ _ H1) as D1.
  assert (E : first < second ->
              consume_next_token (c0 :: c1 :: rest)
              = if legal_pair first second
                then success (2, PAIR first second)
                else errorf (InvalidPair c0 c1)).
  { intros Hlt. unfold consume_next_token.
    rewrite char_at_cons0, char_at_cons1,
      (parse_roman_character_not_terminator _ _ H0), H0,
      (parse_roman_character_not_terminator _ _ H1), H1.
    destruct (Z.ltb_spec first second); [|lia].
    rewrite (valid_pair_legal _ _ D0 D1).
    destruct (legal_pair first second); reflexivity. }
  split.
  - intros Hlt. specialize (E Hlt). repeat split.
    + intros L. now rewrite E, L.
    + intros L. now rewrite E, L.
    + destruct (legal_pair first second); congruence.
    + destruct (legal_pair first second); congruence.
  - intros Hgt. apply consume_next_token_complete.
    apply tok_lonely with (d1 := second); auto; lia.
Qed.

Lemma consume_two_digits_witness :
  consume_next_token (cstr "XCIV") = success (2, PAIR 10 100)
  /\ consume_next_token (cstr "XI") = success (1, REPEAT 10 1).
Proof.
  split.
  - apply (proj1 (consume_two_digits "X" "C" (cstr "IV") 10 100 eq_refl eq_refl)).
    + reflexivity.
    + reflexivity.
  - apply (proj2 (consume_two_digits "X" "I" [] 10 1 eq_refl eq_refl)).
    reflexivity.
Defined.

(** ** Concrete failures *)

(** C5.  The empty string fails with the empty-input error; a lone line
    terminator fails too, but with the tokenizer's end-of-input error: the
    entry check of [parse_roman_number] tests NUL only. *)
Theorem parse_empty_inputs :
  parse_roman_number [] = Some (Returns (errorf EmptyInput))
  /\ parse_roman_number [LF] = Some (Returns (errorf EndOfInput))
  /\ error_message EmptyInput = Some "input is empty"%string
  /\ error_message EndOfInput = Some "EOF"%string.
Proof. repeat split. Qed.

(** C7.  "IVIV" fails with the invalid-sequence error: each half tokenizes as
    the pair IV, and the sequence validator rejects IV followed by IV. *)
Theorem parse_IVIV :
  consume_next_token (cstr "IVIV") = success (2, PAIR 1 5)
  /\ ptr_add (cstr "IVIV") 2 = Some (cstr "IV")
  /\ consume_next_token (cstr "IV") = success (2, PAIR 1 5)
  /\ valid_sequence (PAIR 1 5) (PAIR 1 5) = false
  /\ parse_roman_number (cstr "IVIV")
     = Some (Returns (errorf (InvalidSequence (Some (cstr "IV")) (Some (cstr "IV")))))
  /\ error_message (InvalidSequence (Some (cstr "IV")) (Some (cstr "IV")))
     = Some " IV cannot be followed by IV"%string.
Proof. repeat split. Qed.

(** ** Round trip through the canonical rendering *)

Example to_roman_1999 : to_roman 1999 = cstr "MCMXCIX".
Proof. reflexivity. Qed.

Example to_roman_3888 : to_roman 3888 = cstr "MMMDCCCLXXXVIII".
Proof. reflexivity. Qed.

Example to_roman_444 : to_roman 444 = cstr "CDXLIV".
Proof. reflexivity. Qed.

Lemma returns_value_spec o v :
  returns_value o v = true <-> o = Some (Returns (success v)).
Proof.
  unfold returns_value. split.
  - destruct o as [[[x|e]| |]|]; try discriminate.
    intros H. apply Z.eqb_eq in H. now subst.
  - intros ->. apply Z.eqb_refl.
Qed.

(** The round trip is decided by running the parser on each of the 3999
    numerals. *)
Lemma roundtrips_upto_3999 : forallb roundtrips (seq 1 3999) = true.
Proof. vm_compute. reflexivity. Qed.

(** C1.  For every [v] from 1 to 3999, parsing the canonical roman numeral
    of [v] succeeds with the value [v]; the same holds when the numeral is
    followed by a line terminator. *)
Theorem parse_to_roman (v : nat) :
  (1 <= v <= 3999)%nat ->
  parse_roman_number (to_roman v) = Some (Returns (success (Z.of_nat v)))
  /\ parse_roman_number (to_roman v ++ [LF]) = Some (Returns (success (Z.of_nat v))).
Proof.
  intros Hv.
  pose proof roundtrips_upto_3999 as H.
  rewrite forallb_forall in H.
  specialize (H v). unfold roundtrips in H.
  rewrite andb_true_iff, !returns_value_spec in H.
  apply H. apply in_seq. lia.
Qed.

Lemma parse_to_roman_witness :
  parse_roman_number (to_roman 2023) = Some (Returns (success 2023))
  /\ parse_roman_number (to_roman 2023 ++ [LF]) = Some (Returns (success 2023)).
Proof. apply (parse_to_roman 2023). lia. Defined.

(** ** Consumed counts and termination *)

Lemma ptr_add_Some str n str' :
  ptr_add str n = Some str' <->
  0 <= n <= Z.of_nat (length str) /\ str' = skipn (Z.to_nat n) str.
Proof.
  unfold ptr_add.
  destruct (Z.leb_spec 0 n), (Z.leb_spec n (Z.of_nat (length str))); cbn [andb];
    split; try discriminate; try lia.
  - intros [= <-]. split; [lia|reflexivity].
  - intros [_ ->]. reflexivity.
Qed.

Lemma ptr_add_length str n str' :
  ptr_add str n = Some str' -> Z.of_nat (length str') = Z.of_nat (length str) - n.
Proof.
  rewrite ptr_add_Some. intros [Hn ->]. rewrite length_skipn. lia.
Qed.

Lemma tokenizes_length str n t : tokenizes str n t -> (1 <= length str)%nat.
Proof.
  intros [c d rest _ _ | c d c1 d1 rest _ _ _ | c d c1 d1 rest _ _ _ _
         | c d k rest _ Hk _ _]; cbn [length]; try lia.
  rewrite length_app, repeat_length. lia.
Qed.

(** A positive consumed count stays inside the string, whatever its length. *)
Lemma tokenizes_consumed_le str n t :
  tokenizes str n t -> 0 < n -> n <= Z.of_nat (length str).
Proof.
  intros [c d rest _ _ | c d c1 d1 rest _ _ _ | c d c1 d1 rest _ _ _ _
         | c d k rest _ Hk _ _] Hpos; cbn [length]; try lia.
  rewrite length_app, repeat_length.
  pose proof (to_int_pos_le (Z.of_nat k) ltac:(lia) Hpos). lia.
Qed.

(** On a string whose length fits an [int], the consumed count is positive. *)
Lemma tokenizes_consumed_pos str n t :
  tokenizes str n t -> Z.of_nat (length str) <= int_max -> 0 < n.
Proof.
  intros [c d rest _ _ | c d c1 d1 rest _ _ _ | c d c1 d1 rest _ _ _ _
         | c d k rest _ Hk _ _] Hlen; try lia.
  rewrite length_app, repeat_length in Hlen.
  rewrite to_int_id; [lia|]. unfold in_range, int_min, int_max in *. lia.
Qed.

Lemma parse_loop_total fuel str prev tally :
  (length str < fuel)%nat ->
  exists o, parse_loop fuel str prev tally = Some o.
Proof.
  revert str prev tally.
  induction fuel as [|fuel IH]; intros str prev tally Hfuel; [lia|].
  cbn [parse_loop].
  destruct (is_terminator (char_at str 0)); [eauto|].
  destruct (consume_next_token str) as [[value next]|e]; [|eauto].
  destruct (Z.gtb_spec value 0) as [Hpos|_]; cbn [negb]; [|eauto].
  destruct (valid_sequence prev next); cbn [negb]; [|eauto].
  destruct (ptr_add str value) as [str'|] eqn:Hadd; [|eauto].
  apply IH. apply ptr_add_length in Hadd. lia.
Qed.

Lemma parse_roman_number_total str :
  exists o, parse_roman_number str = Some o.
Proof.
  unfold parse_roman_number.
  destruct (char_at str 0 =? NUL)%char; [eauto|].
  destruct (consume_next_token str) as [[value prev]|e]; [|eauto].
  destruct (ptr_add str value) as [str'|]; [|eauto].
  apply parse_loop_total. lia.
Qed.

(** On a string whose length fits an [int] the loop returns: the assertion
    holds and the cursor stays inside the string. *)
Lemma parse_loop_returns fuel str prev tally :
  (length str < fuel)%nat ->
  Z.of_nat (length str) <= int_max ->
  exists r, parse_loop fuel str prev tally = Some (Returns r).
Proof.
  revert str prev tally.
  induction fuel as [|fuel IH]; intros str prev tally Hfuel Hlen; [lia|].
  cbn [parse_loop].
  destruct (is_terminator (char_at str 0)); [eauto|].
  destruct (consume_next_token str) as [[value next]|e] eqn:Htok; [|eauto].
  apply consume_next_token_sound in Htok.
  pose proof (tokenizes_consumed_pos _ _ _ Htok Hlen) as Hpos.
  pose proof (tokenizes_consumed_le _ _ _ Htok Hpos) as Hle.
  destruct (Z.gtb_spec value 0); [|lia]. cbn [negb].
  destruct (valid_sequence prev next); cbn [negb]; [|eauto].
  destruct (ptr_add str value) as [str'|] eqn:Hadd.
  - pose proof (ptr_add_length _ _ _ Hadd). apply IH; lia.
  - assert (ptr_add str value = Some (skipn (Z.to_nat value) str)) as E
        by (apply ptr_add_Some; split; [lia|reflexivity]).
    congruence.
Qed.

Lemma parse_roman_number_returns str :
  Z.of_nat (length str) <= int_max ->
  exists r, parse_roman_number str = Some (Returns r).
Proof.
  intros Hlen. unfold parse_roman_number.
  destruct (char_at str 0 =? NUL)%char; [eauto|].
  destruct (consume_next_token str) as [[value prev]|e] eqn:Htok; [|eauto].
  apply consume_next_token_sound in Htok.
  pose proof (tokenizes_consumed_pos _ _ _ Htok Hlen) as Hpos.
  pose proof (tokenizes_consumed_le _ _ _ Htok Hpos) as Hle.
  destruct (ptr_add str value) as [str'|] eqn:Hadd.
  - pose proof (ptr_add_length _ _ _ Hadd). apply parse_loop_returns; lia.
  - assert (ptr_add str value = Some (skipn (Z.to_nat value) str)) as E
        by (apply ptr_add_Some; split; [lia|reflexivity]).
    congruence.
Qed.

(** ** Runs of one character *)

Lemma consume_run c d k rest :
  parse_roman_character c = Some d ->
  (2 <= k)%nat ->
  char_at rest 0 <> c ->
  consume_next_token (repeat c k ++ rest)
  = if valid_repeats d (to_int (Z.of_nat k))
    then success (to_int (Z.of_nat k), REPEAT d (to_int (Z.of_nat k)))
    else errorf (InvalidRepeatCount c (to_int (Z.of_nat k))).
Proof.
  intros Hc Hk Hrest.
  destruct (valid_repeats d (to_int (Z.of_nat k))) eqn:Hvalid.
  - apply consume_next_token_complete. now apply tok_run.
  - destruct k as [|[|k]]; try lia. cbn [repeat app].
    unfold consume_next_token.
    rewrite char_at_cons0, char_at_cons1,
      (parse_roman_character_not_terminator _ _ Hc), Hc.
    rewrite Z.ltb_irrefl. destruct (Z.gtb_spec d d); [lia|].
    cbn [skipn]. rewrite (scan_repeats_run _ _ _ _ _ Hc Hrest).
    change (2 + k)%nat with (S (S k)). rewrite Hvalid. reflexivity.
Qed.

(** A run of 2^31 copies of I: the run length does not fit the [int]
    [num_repeats], the converted count is negative, and [valid_repeats]
    accepts it because it is below 4. *)
Lemma consume_run_of_2_pow_31 :
  consume_next_token (repeat "I"%char (Z.to_nat 2147483648))
  = success (-2147483648, REPEAT 1 (-2147483648)).
Proof.
  remember (Z.to_nat 2147483648) as k eqn:Hk.
  assert (Hof : Z.of_nat k = 2147483648) by lia.
  rewrite <- (app_nil_r (repeat "I"%char k)).
  rewrite (consume_run "I" 1 k []); [|reflexivity|lia|discriminate].
  rewrite Hof. reflexivity.
Qed.

(** Progress within the [int] range.  On a string whose length fits an
    [int], every successful tokenizer call returns a consumed count that is
    positive and within the string, and [parse_roman_number] returns a
    result. *)
Theorem tokenizer_progress str :
  Z.of_nat (length str) <= int_max ->
  (forall n t, consume_next_token str = success (n, t) ->
               0 < n <= Z.of_nat (length str))
  /\ (exists r, parse_roman_number str = Some (Returns r)).
Proof.
  intros Hlen. split.
  - intros n t Htok. apply consume_next_token_sound in Htok.
    pose proof (tokenizes_consumed_pos _ _ _ Htok Hlen) as Hpos.
    split; [exact Hpos|]. now apply tokenizes_consumed_le with (t := t).
  - now apply parse_roman_number_returns.
Qed.

Lemma tokenizer_progress_witness :
  (forall n t, consume_next_token (cstr "MCMXCIX") = success (n, t) ->
               0 < n <= 7)
  /\ (exists r, parse_roman_number (cstr "MCMXCIX") = Some (Returns r)).
Proof. apply (tokenizer_progress (cstr "MCMXCIX")). vm_compute. discriminate. Defined.

Lemma char_at_repeat0 c k (rest : cstring) :
  (1 <= k)%nat -> char_at (repeat c k ++ rest) 0 = c.
Proof. destruct k; [lia|reflexivity]. Qed.

(** C8.  Every successful tokenizer call is meant to consume at least one
    character, as the assertion in the parse loop says.  The code breaks it
    on a run of 2^31 copies of I: the run length converted to [int] is
    -2^31, [valid_repeats] lets it through, and the tokenizer succeeds with
    that count.  As first token the count moves the cursor of
    [parse_roman_number] out of the string (that path has no assertion);
    behind a first token M the assertion of the loop fails. *)
Lemma tokenizer_progress_fails_on_huge_run :
  consume_next_token (repeat "I"%char (Z.to_nat 2147483648))
  = success (-2147483648, REPEAT 1 (-2147483648))
  /\ ~ 0 < -2147483648
  /\ parse_roman_number (repeat "I"%char (Z.to_nat 2147483648)) = Some OutOfBounds
  /\ parse_roman_number ("M"%char :: repeat "I"%char (Z.to_nat 2147483648))
     = Some AssertionFailure.
Proof.
  split; [exact consume_run_of_2_pow_31|]. split; [lia|]. split.
  - unfold parse_roman_number. rewrite consume_run_of_2_pow_31.
    rewrite <- (app_nil_r (repeat _ _)), char_at_repeat0 by lia.
    reflexivity.
  - pose proof consume_run_of_2_pow_31 as Hrun.
    remember (Z.to_nat 2147483648) as k eqn:Hk.
    destruct k as [|k]; [lia|]. cbn [repeat] in *.
    unfold parse_roman_number. rewrite char_at_cons0.
    rewrite (consume_next_token_complete _ 1 (REPEAT 1000 1))
      by (apply tok_lonely with (d1 := 1); reflexivity).
    assert (ptr_add ("M"%char :: "I"%char :: repeat "I"%char k) 1
            = Some ("I"%char :: repeat "I"%char k)) as ->.
    { apply ptr_add_Some. split; [cbn [length]; lia|reflexivity]. }
    cbn [parse_loop]. rewrite char_at_cons0, Hrun. reflexivity.
Qed.

(** ** Values *)

Ltac roman_digits :=
  repeat match goal with
         | H : parse_roman_character _ = Some _ |- _ =>
             apply parse_roman_character_digit in H; unfold roman_digit in H
         end.

Lemma valid_pair_difference d d1 :
  valid_pair d d1 = true -> 4 <= d1 - d <= 900.
Proof.
  unfold valid_pair.
  destruct (Z.eqb_spec d1 5), (Z.eqb_spec d1 10), (Z.eqb_spec d1 50),
    (Z.eqb_spec d1 100), (Z.eqb_spec d1 500), (Z.eqb_spec d1 1000);
    cbn [orb]; try discriminate; rewrite Z.eqb_eq; lia.
Qed.

(** A pair accepted by the tokenizer is worth at least 4. *)
Lemma tokenizes_pair_value str n p s :
  tokenizes str n (PAIR p s) -> 4 <= token_value (PAIR p s) <= 900.
Proof.
  intros H. inversion H; subst.
  pose proof (valid_pair_difference _ _ H7).
  cbn [token_value]. rewrite to_int_id; [lia|].
  unfold in_range, int_min, int_max. lia.
Qed.

(** While a thousand times the length fits an [int], a token is worth at
    least 1 and at most 1000 per character consumed. *)
Lemma tokenizes_value str n t :
  tokenizes str n t ->
  1000 * Z.of_nat (length str) <= int_max ->
  0 < n <= Z.of_nat (length str) /\ 1 <= token_value t <= 1000 * n.
Proof.
  intros H Hlen.
  assert (Hlen' : Z.of_nat (length str) <= int_max) by (unfold int_max in *; lia).
  pose proof (tokenizes_consumed_pos _ _ _ H Hlen') as Hpos.
  pose proof (tokenizes_consumed_le _ _ _ H Hpos) as Hle.
  split; [lia|].
  destruct t as [p s|d n'].
  - pose proof (tokenizes_pair_value _ _ _ _ H). inversion H; subst. lia.
  - assert (n' = n /\ roman_digit d) as [-> Hd].
    { inversion H; subst; roman_digits; auto. }
    cbn [token_value]. unfold roman_digit in Hd.
    rewrite to_int_id; unfold in_range, int_min, int_max in *; nia.
Qed.

(** Loop invariant for the tally: it grows by at least 1 and at most 1000 per
    character, so it cannot overflow before the string runs out. *)
Lemma parse_loop_value fuel str prev tally v :
  tally + 1000 * Z.of_nat (length str) <= int_max ->
  0 <= tally ->
  parse_loop fuel str prev tally = Some (Returns (success v)) ->
  tally <= v <= tally + 1000 * Z.of_nat (length str).
Proof.
  revert str prev tally.
  induction fuel as [|fuel IH]; intros str prev tally Hmax Hmin; [discriminate|].
  cbn [parse_loop].
  destruct (is_terminator (char_at str 0)).
  { intros [= <-]. lia. }
  destruct (consume_next_token str) as [[value next]|e] eqn:Htok; [|discriminate].
  apply consume_next_token_sound in Htok.
  destruct (tokenizes_value _ _ _ Htok) as [Hn Hv].
  { unfold int_min, int_max in *. lia. }
  destruct (Z.gtb_spec value 0); [|lia]. cbn [negb].
  destruct (valid_sequence prev next); cbn [negb]; [|discriminate].
  destruct (ptr_add str value) as [str'|] eqn:Hadd; [|discriminate].
  pose proof (ptr_add_length _ _ _ Hadd) as Hlen'.
  rewrite to_int_id by (unfold in_range, int_min, int_max in *; lia).
  intros Hloop. apply IH in Hloop; lia.
Qed.

Lemma tokenizes_head str n t :
  tokenizes str n t ->
  parse_roman_character (char_at str 0) = Some (prefix_digit t).
Proof.
  intros [c d rest Hc _ | c d c1 d1 rest Hc _ _ | c d c1 d1 rest Hc _ _ _
         | c d k rest Hc Hk _ _]; cbn [prefix_digit]; try exact Hc.
  rewrite char_at_repeat0 by lia. exact Hc.
Qed.

(** The entry point after its first token: the loop starts on the rest of
    the string with the value of that token. *)
Lemma parse_roman_number_first str n t :
  tokenizes str n t ->
  0 < n ->
  parse_roman_number str
  = parse_loop (S (length (skipn (Z.to_nat n) str))) (skipn (Z.to_nat n) str) t
      (to_int (0 + token_value t)).
Proof.
  intros Htok Hpos. unfold parse_roman_number.
  pose proof (tokenizes_head _ _ _ Htok) as Hhead.
  destruct (Ascii.eqb_spec (char_at str 0) NUL) as [E|_].
  { rewrite E in Hhead. discriminate Hhead. }
  rewrite (consume_next_token_complete _ _ _ Htok).
  pose proof (tokenizes_consumed_le _ _ _ Htok Hpos) as Hle.
  assert (ptr_add str n = Some (skipn (Z.to_nat n) str)) as ->
      by (apply ptr_add_Some; split; [lia|reflexivity]).
  reflexivity.
Qed.

(** C9 (as it holds).  While a thousand times the length of the input fits
    an [int] (at most 2147483 characters), every token the tokenizer accepts
    is worth at least 1, a pair at least 4, and a successful parse returns a
    value of at least 1. *)
Theorem parse_value_positive str :
  1000 * Z.of_nat (length str) <= int_max ->
  (forall n t, consume_next_token str = success (n, t) ->
               1 <= token_value t
               /\ (forall p s, t = PAIR p s -> 4 <= token_value t))
  /\ (forall v, parse_roman_number str = Some (Returns (success v)) -> 1 <= v).
Proof.
  intros Hlen. split.
  - intros n t Htok. apply consume_next_token_sound in Htok. split.
    + now apply (tokenizes_value _ _ _ Htok).
    + intros p s ->. now apply (tokenizes_pair_value _ _ _ _ Htok).
  - intros v Hparse.
    destruct (consume_next_token str) as [[n t]|e] eqn:Htok.
    + apply consume_next_token_sound in Htok.
      destruct (tokenizes_value _ _ _ Htok Hlen) as [Hn Hv].
      rewrite (parse_roman_number_first _ _ _ Htok) in Hparse by lia.
      rewrite to_int_id in Hparse
        by (unfold in_range, int_min, int_max in *; lia).
      apply parse_loop_value in Hparse; rewrite ?length_skipn; lia.
    + unfold parse_roman_number in Hparse. rewrite Htok in Hparse.
      destruct (char_at str 0 =? NUL)%char; discriminate Hparse.
Qed.

Lemma parse_value_positive_witness :
  (forall n t, consume_next_token (cstr "XLII") = success (n, t) ->
               1 <= token_value t
               /\ (forall p s, t = PAIR p s -> 4 <= token_value t))
  /\ (forall v, parse_roman_number (cstr "XLII") = Some (Returns (success v)) ->
                1 <= v).
Proof. apply (parse_value_positive (cstr "XLII")). vm_compute. discriminate. Defined.

(** The parse of a string that is one run of at least two characters. *)
Lemma parse_roman_number_run c d k :
  parse_roman_character c = Some d ->
  (2 <= k)%nat ->
  Z.of_nat k <= int_max ->
  valid_repeats d (Z.of_nat k) = true ->
  parse_roman_number (repeat c k)
  = Some (Returns (success (to_int (0 + to_int (d * Z.of_nat k))))).
Proof.
  intros Hc Hk Hmax Hvalid.
  assert (Hint : to_int (Z.of_nat k) = Z.of_nat k)
    by (apply to_int_id; unfold in_range, int_min, int_max in *; lia).
  assert (Htok : tokenizes (repeat c k ++ []) (Z.of_nat k) (REPEAT d (Z.of_nat k))).
  { rewrite <- Hint. apply tok_run; auto.
    - cbn. intros E. symmetry in E. revert E. now apply roman_not_NUL with (d := d).
    - now rewrite Hint. }
  rewrite app_nil_r in Htok.
  rewrite (parse_roman_number_first _ _ _ Htok) by lia.
  rewrite Nat2Z.id.
  rewrite <- (repeat_length c k) at 1 3. rewrite skipn_all. reflexivity.
Qed.

(** C9, refuted as stated: 2147484 copies of M parse successfully, and the
    product 1000 * 2147484 does not fit an [int]; with two's complement
    wrap-around the value returned is negative. *)
Lemma parse_value_negative_on_overflow :
  parse_roman_number (repeat "M"%char (Z.to_nat 2147484))
  = Some (Returns (success (-2147483296)))
  /\ ~ 1 <= -2147483296.
Proof.
  split; [|lia].
  remember (Z.to_nat 2147484) as k eqn:Hk.
  assert (Hof : Z.of_nat k = 2147484) by lia.
  rewrite (parse_roman_number_run "M" 1000 k); rewrite ?Hof;
    try reflexivity; try lia.
  vm_compute. discriminate.
Qed.

(** ** Fuel *)

(** Any fuel above the length of the string gives the same outcome. *)
Lemma parse_loop_fuel f1 f2 str prev tally :
  (length str < f1)%nat -> (length str < f2)%nat ->
  parse_loop f1 str prev tally = parse_loop f2 str prev tally.
Proof.
  revert f2 str prev tally.
  induction f1 as [|f1 IH]; intros [|f2] str prev tally H1 H2; try lia.
  cbn [parse_loop].
  destruct (is_terminator (char_at str 0)); [reflexivity|].
  destruct (consume_next_token str) as [[value next]|e]; [|reflexivity].
  destruct (Z.gtb_spec value 0) as [Hpos|_]; cbn [negb]; [|reflexivity].
  destruct (valid_sequence prev next); cbn [negb]; [|reflexivity].
  destruct (ptr_add str value) as [str'|] eqn:Hadd; [|reflexivity].
  apply ptr_add_length in Hadd. apply IH; lia.
Qed.

(** ** Characters consumed by a token *)

Lemma tokenizes_nonzero str n t : tokenizes str n t -> n <> 0.
Proof.
  intros [c d rest _ _ | c d c1 d1 rest _ _ _ | c d c1 d1 rest _ _ _ _
         | c d k rest _ _ _ Hvalid]; try lia.
  intros E. rewrite E in Hvalid. discriminate Hvalid.
Qed.

(** The characters a token consumes are roman letters. *)
Lemma tokenizes_roman_prefix str n t i :
  tokenizes str n t -> Z.of_nat i < n ->
  parse_roman_character (char_at str i) <> None.
Proof.
  intros [c d rest Hc _ | c d c1 d1 rest Hc _ _ | c d c1 d1 rest Hc Hc1 _ _
         | c d k rest Hc Hk _ _] Hi.
  - assert (i = 0%nat) as -> by lia. rewrite char_at_cons0. congruence.
  - assert (i = 0%nat) as -> by lia. rewrite char_at_cons0. congruence.
  - assert (i = 0 \/ i = 1)%nat as [-> | ->] by lia.
    + rewrite char_at_cons0. congruence.
    + rewrite char_at_cons1. congruence.
  - assert (i < k)%nat.
    { pose proof (to_int_pos_le (Z.of_nat k)). lia. }
    unfold char_at. rewrite app_nth1 by (rewrite repeat_length; lia).
    rewrite nth_repeat_lt by lia. congruence.
Qed.

Lemma char_at_middle (p : cstring) x q : char_at (p ++ x :: q) (length p) = x.
Proof. unfold char_at. apply nth_middle. Qed.

(** A token never reaches past a character that is not a roman letter. *)
Lemma tokenizes_within p x q n t :
  tokenizes (p ++ x :: q) n t ->
  parse_roman_character x = None ->
  n <= Z.of_nat (length p).
Proof.
  intros Htok Hx.
  destruct (Z.le_gt_cases n (Z.of_nat (length p))) as [|Hgt]; [assumption|].
  elim (tokenizes_roman_prefix _ _ _ (length p) Htok); [lia|].
  now rewrite char_at_middle.
Qed.

Lemma ptr_add_within p x q n t :
  tokenizes (p ++ x :: q) n t ->
  parse_roman_character x = None ->
  ptr_add (p ++ x :: q) n
  = if 0 <? n then Some (skipn (Z.to_nat n) p ++ x :: q) else None.
Proof.
  intros Htok Hx.
  pose proof (tokenizes_within _ _ _ _ _ Htok Hx) as Hle.
  pose proof (tokenizes_nonzero _ _ _ Htok) as Hnz.
  unfold ptr_add. rewrite length_app. cbn [length].
  destruct (Z.ltb_spec 0 n), (Z.leb_spec 0 n); try lia; cbn [andb]; [|reflexivity].
  destruct (Z.leb_spec n (Z.of_nat (length p + S (length q)))); [|lia].
  rewrite skipn_app.
  replace (Z.to_nat n - length p)%nat with 0%nat by lia. reflexivity.
Qed.

Lemma within_line_skipn n p : within_line p -> within_line (skipn n p).
Proof.
  unfold within_line. intros H.
  rewrite <- (firstn_skipn n p) in H. now apply Forall_app in H.
Qed.

Lemma terminator_not_roman t :
  is_terminator t = true -> parse_roman_character t = None.
Proof.
  intros H. destruct (parse_roman_character t) as [d|] eqn:E; [|reflexivity].
  apply parse_roman_character_not_terminator in E. congruence.
Qed.

Lemma char_at_app0 (p : cstring) x q :
  within_line p ->
  is_terminator (char_at (p ++ x :: q) 0) = is_terminator x
  \/ is_terminator (char_at (p ++ x :: q) 0) = false /\ p <> [].
Proof.
  intros Hp. destruct p as [|c p]; [now left|].
  right. split; [|discriminate]. now inversion Hp.
Qed.

(** ** Nothing after the line terminator is read *)

Lemma scan_repeats_line c p t r n :
  is_terminator t = true ->
  scan_repeats c (p ++ t :: r) n = scan_repeats c (p ++ [t]) n.
Proof.
  intros Ht. revert n. induction p as [|x p IH]; intros n; cbn [app scan_repeats].
  - destruct (Ascii.eqb_spec c t) as [->|_]; [|reflexivity].
    now rewrite (terminator_not_roman _ Ht).
  - destruct (c =? x)%char; [|reflexivity].
    destruct (parse_roman_character c); [apply IH|reflexivity].
Qed.

Lemma consume_next_token_line p t r :
  is_terminator t = true ->
  consume_next_token (p ++ t :: r) = consume_next_token (p ++ [t]).
Proof.
  intros Ht. unfold consume_next_token.
  destruct p as [|c [|c1 p]]; cbn [app].
  - rewrite !char_at_cons0, Ht. reflexivity.
  - rewrite !char_at_cons0, !char_at_cons1, Ht. reflexivity.
  - rewrite !char_at_cons0, !char_at_cons1. cbn [skipn].
    now rewrite (scan_repeats_line c p t r 2 Ht).
Qed.

Lemma parse_loop_line fuel p t r prev tally :
  within_line p ->
  is_terminator t = true ->
  parse_loop fuel (p ++ t :: r) prev tally = parse_loop fuel (p ++ [t]) prev tally.
Proof.
  intros Hp Ht. revert p prev tally Hp.
  induction fuel as [|fuel IH]; intros p prev tally Hp; [reflexivity|].
  cbn [parse_loop].
  assert (E0 : char_at (p ++ t :: r) 0 = char_at (p ++ [t]) 0)
    by (destruct p; reflexivity).
  rewrite E0, (consume_next_token_line p t r Ht).
  destruct (is_terminator (char_at (p ++ [t]) 0)); [reflexivity|].
  destruct (consume_next_token (p ++ [t])) as [[value next]|e] eqn:Htok;
    [|reflexivity].
  apply consume_next_token_sound in Htok.
  pose proof (terminator_not_roman _ Ht) as Hnone.
  rewrite (ptr_add_within p t [] value next Htok Hnone).
  rewrite <- (consume_next_token_iff), <- (consume_next_token_line p t r Ht),
    consume_next_token_iff in Htok.
  rewrite (ptr_add_within p t r value next Htok Hnone).
  destruct (Z.gtb_spec value 0) as [Hpos|_]; cbn [negb]; [|reflexivity].
  destruct (valid_sequence prev next); cbn [negb]; [|reflexivity].
  destruct (Z.ltb_spec 0 value); [|lia].
  apply IH. now apply within_line_skipn.
Qed.

(** The outcome on a line does not depend on what follows its terminator. *)
Lemma parse_roman_number_line p t r :
  within_line p ->
  is_terminator t = true ->
  parse_roman_number (p ++ t :: r) = parse_roman_number (p ++ [t]).
Proof.
  intros Hp Ht. unfold parse_roman_number.
  assert (E0 : char_at (p ++ t :: r) 0 = char_at (p ++ [t]) 0)
    by (destruct p; reflexivity).
  rewrite E0, (consume_next_token_line p t r Ht).
  destruct (char_at (p ++ [t]) 0 =? NUL)%char; [reflexivity|].
  destruct (consume_next_token (p ++ [t])) as [[value prev]|e] eqn:Htok;
    [|reflexivity].
  apply consume_next_token_sound in Htok.
  pose proof (terminator_not_roman _ Ht) as Hnone.
  pose proof (tokenizes_within _ _ _ _ _ Htok Hnone) as Hle.
  rewrite (ptr_add_within p t [] value prev Htok Hnone).
  rewrite <- (consume_next_token_iff), <- (consume_next_token_line p t r Ht),
    consume_next_token_iff in Htok.
  rewrite (ptr_add_within p t r value prev Htok Hnone).
  destruct (Z.ltb_spec 0 value); [|reflexivity].
  rewrite parse_loop_line by (now apply within_line_skipn || assumption).
  apply parse_loop_fuel; rewrite !length_app; cbn [length]; lia.
Qed.

(** Every string is a line, or a line followed by a terminator and more. *)
Lemma line_split (s : cstring) :
  within_line s
  \/ exists p t q, s = p ++ t :: q /\ within_line p /\ is_terminator t = true.
Proof.
  induction s as [|c s IH].
  - left. constructor.
  - destruct (is_terminator c) eqn:Hc.
    + right. exists [], c, s. repeat split; [constructor|assumption].
    + destruct IH as [Hs | (p & t & q & -> & Hp & Ht)].
      * left. now constructor.
      * right. exists (c :: p), t, q. repeat split; [now constructor|assumption].
Qed.

(** C10.  Two strings that agree up to and including a line terminator (or
    the NUL that ends the string) give the same outcome: same value, same
    error, and the same arguments in the error message. *)
Theorem parse_ignores_after_terminator (p r1 r2 : cstring) :
  parse_roman_number (p ++ LF :: r1) = parse_roman_number (p ++ LF :: r2)
  /\ parse_roman_number (p ++ NUL :: r1) = parse_roman_number (p ++ NUL :: r2).
Proof.
  assert (H : forall t, is_terminator t = true ->
                        parse_roman_number (p ++ t :: r1)
                        = parse_roman_number (p ++ t :: r2)).
  { intros t0 Ht0.
    destruct (line_split p) as [Hp | (p' & t & q & -> & Hp & Ht)].
    - rewrite (parse_roman_number_line p t0 r1), (parse_roman_number_line p t0 r2)
        by assumption.
      reflexivity.
    - rewrite <- !app_assoc. cbn [app].
      rewrite (parse_roman_number_line p' t (q ++ t0 :: r1)),
        (parse_roman_number_line p' t (q ++ t0 :: r2)) by assumption.
      reflexivity. }
  split; apply H; reflexivity.
Qed.

(** ** Characters that are not roman letters *)

Lemma parse_loop_invalid fuel p x q prev tally :
  within_line p ->
  is_terminator x = false ->
  parse_roman_character x = None ->
  (length p < fuel)%nat ->
  Z.of_nat (length (p ++ x :: q)) <= int_max ->
  exists e, parse_loop fuel (p ++ x :: q) prev tally = Some (Returns (errorf e)).
Proof.
  intros Hp Hx Hnone. revert p prev tally Hp.
  induction fuel as [|fuel IH]; intros p prev tally Hp Hfuel Hlen; [lia|].
  cbn [parse_loop].
  assert (is_terminator (char_at (p ++ x :: q) 0) = false) as ->.
  { destruct (char_at_app0 p x q Hp) as [->|[-> _]]; auto. }
  destruct (consume_next_token (p ++ x :: q)) as [[value next]|e] eqn:Htok;
    [|eauto].
  apply consume_next_token_sound in Htok.
  pose proof (tokenizes_within _ _ _ _ _ Htok Hnone) as Hle.
  pose proof (tokenizes_consumed_pos _ _ _ Htok Hlen) as Hpos.
  destruct (Z.gtb_spec value 0); [|lia]. cbn [negb].
  destruct (valid_sequence prev next); cbn [negb]; [|eauto].
  rewrite (ptr_add_within _ _ _ _ _ Htok Hnone).
  destruct (Z.ltb_spec 0 value); [|lia].
  apply IH.
  - now apply within_line_skipn.
  - rewrite length_skipn. lia.
  - rewrite length_app in *. rewrite length_skipn. lia.
Qed.

(** Invalid characters within the [int] range.  When the length of the input
    fits an [int], a character that is neither a roman letter nor a
    terminator, anywhere before the end of the line, makes
    [parse_roman_number] return an error. *)
Theorem parse_rejects_invalid_character p x q :
  within_line p ->
  is_terminator x = false ->
  parse_roman_character x = None ->
  Z.of_nat (length (p ++ x :: q)) <= int_max ->
  exists e, parse_roman_number (p ++ x :: q) = Some (Returns (errorf e)).
Proof.
  intros Hp Hx Hnone Hlen. unfold parse_roman_number.
  destruct (char_at (p ++ x :: q) 0 =? NUL)%char; [eauto|].
  destruct (consume_next_token (p ++ x :: q)) as [[value prev]|e] eqn:Htok;
    [|eauto].
  apply consume_next_token_sound in Htok.
  pose proof (tokenizes_within _ _ _ _ _ Htok Hnone) as Hle.
  pose proof (tokenizes_consumed_pos _ _ _ Htok Hlen) as Hpos.
  rewrite (ptr_add_within _ _ _ _ _ Htok Hnone).
  destruct (Z.ltb_spec 0 value); [|lia].
  apply parse_loop_invalid; auto.
  - now apply within_line_skipn.
  - rewrite length_app. lia.
  - rewrite length_app in *. rewrite length_skipn. lia.
Qed.

Lemma parse_rejects_invalid_character_witness :
  exists e, parse_roman_number (cstr "MCxI") = Some (Returns (errorf e)).
Proof.
  apply (parse_rejects_invalid_character (cstr "MC") "x" (cstr "I")).
  - repeat constructor.
  - reflexivity.
  - reflexivity.
  - vm_compute. discriminate.
Defined.

(** C6.  A character that is not a roman letter is meant to make the parse
    fail wherever it stands.  The code misses it behind a run of 2^31 copies
    of I: the tokenizer returns the negative count of that run, the entry
    point adds it to its cursor without a check, and the cursor leaves the
    string before the invalid character is looked at, so no error is
    returned for it. *)
Lemma parse_invalid_character_after_huge_run :
  parse_roman_number (repeat "I"%char (Z.to_nat 2147483648) ++ ["?"%char])
  = Some OutOfBounds
  /\ parse_roman_character "?" = None
  /\ ~ exists e, parse_roman_number
                   (repeat "I"%char (Z.to_nat 2147483648) ++ ["?"%char])
                 = Some (Returns (errorf e)).
Proof.
  assert (E : parse_roman_number
                (repeat "I"%char (Z.to_nat 2147483648) ++ ["?"%char])
              = Some OutOfBounds).
  { remember (Z.to_nat 2147483648) as k eqn:Hk.
    assert (Hof : Z.of_nat k = 2147483648) by lia.
    unfold parse_roman_number.
    rewrite char_at_repeat0 by lia.
    rewrite (consume_run "I" 1 k ["?"%char]); [|reflexivity|lia|discriminate].
    rewrite Hof. reflexivity. }
  split; [exact E|]. split; [reflexivity|].
  intros [e He]. rewrite E in He. discriminate He.
Qed.

(** ** Runs against the legal-repeats table *)

Lemma to_int_add_l x y : to_int (to_int x + y) = to_int (x + y).
Proof.
  unfold to_int. f_equal.
  replace ((x + 2147483648) mod 4294967296 - 2147483648 + y + 2147483648)
    with ((x + 2147483648) mod 4294967296 + y) by lia.
  rewrite Zplus_mod_idemp_l. f_equal. lia.
Qed.

Lemma to_int_add_r x y : to_int (x + to_int y) = to_int (x + y).
Proof. rewrite Z.add_comm, to_int_add_l. f_equal. lia. Qed.

(** The tally is only added to: starting the loop [a] higher returns a value
    [a] higher, and changes nothing else. *)
Lemma parse_loop_shift a fuel str prev tally :
  parse_loop fuel str prev (to_int (a + tally))
  = option_map (shift_outcome a) (parse_loop fuel str prev tally).
Proof.
  revert str prev tally.
  induction fuel as [|fuel IH]; intros str prev tally; [reflexivity|].
  cbn [parse_loop].
  destruct (is_terminator (char_at str 0)); [reflexivity|].
  destruct (consume_next_token str) as [[value next]|e]; [|reflexivity].
  destruct (negb (value >? 0)); [reflexivity|].
  destruct (negb (valid_sequence prev next)); [reflexivity|].
  destruct (ptr_add str value) as [str'|]; [|reflexivity].
  rewrite <- IH. f_equal.
  rewrite to_int_add_l, to_int_add_r. f_equal. lia.
Qed.

(** A run of [k] copies of a roman letter, tokenized where it starts: alone
    on the rest of the line, in front of a smaller digit, or at least two
    characters long. *)
Lemma tokenizes_run c d k rest :
  parse_roman_character c = Some d ->
  (1 <= k)%nat ->
  Z.of_nat k <= int_max ->
  char_at rest 0 <> c ->
  (k = 1%nat -> lonely_before d rest) ->
  valid_repeats d (Z.of_nat k) = true ->
  tokenizes (repeat c k ++ rest) (Z.of_nat k) (REPEAT d (Z.of_nat k)).
Proof.
  intros Hc Hk Hmax Hrest Hlonely Hvalid.
  destruct (Nat.eq_dec k 1) as [->|Hk1].
  - cbn [repeat app]. destruct (Hlonely eq_refl) as [Hend|(d1 & Hc1 & Hlt)].
    + now apply tok_last.
    + destruct rest as [|c1 rest]; [discriminate Hc1|].
      now apply tok_lonely with (d1 := d1).
  - assert (Hint : to_int (Z.of_nat k) = Z.of_nat k)
      by (apply to_int_id; unfold in_range, int_min, int_max in *; lia).
    rewrite <- Hint. apply tok_run; auto; [lia|]. now rewrite Hint.
Qed.

Lemma skipn_repeat_app c k (rest : cstring) : skipn k (repeat c k ++ rest) = rest.
Proof.
  rewrite skipn_app, repeat_length, Nat.sub_diag.
  rewrite <- (repeat_length c k) at 1. now rewrite skipn_all.
Qed.

(** The parse of a run of M in front of a numeral that parses by itself. *)
Lemma parse_roman_number_M_run k rest v :
  (1 <= k)%nat ->
  Z.of_nat k <= int_max ->
  char_at rest 0 <> "M"%char ->
  parse_roman_number rest = Some (Returns (success v)) ->
  parse_roman_number (repeat "M"%char k ++ rest)
  = Some (Returns (success (to_int (1000 * Z.of_nat k + v)))).
Proof.
  intros Hk Hmax HnotM Hrest.
  (* the first token of [rest] *)
  unfold parse_roman_number in Hrest.
  destruct (Ascii.eqb_spec (char_at rest 0) NUL) as [|_]; [discriminate|].
  destruct (consume_next_token rest) as [[m t1]|e] eqn:Htok1; [|discriminate].
  destruct (ptr_add rest m) as [rest1|] eqn:Hadd; [|discriminate].
  apply consume_next_token_sound in Htok1.
  pose proof (tokenizes_head _ _ _ Htok1) as Hhead.
  pose proof (tokenizes_nonzero _ _ _ Htok1) as Hm0.
  pose proof (ptr_add_length _ _ _ Hadd) as Hlen1.
  assert (Hm : 0 < m) by (apply ptr_add_Some in Hadd; lia).
  assert (Hsmall : prefix_digit t1 < 1000).
  { pose proof (parse_roman_character_digit _ _ Hhead) as Hd.
    destruct (Z.eq_dec (prefix_digit t1) 1000) as [E|];
      [|unfold roman_digit in Hd; lia].
    rewrite E in Hhead. elim HnotM.
    now apply parse_roman_character_inj with (d := 1000). }
  (* the run of M is the first token of the whole string *)
  assert (Htok : tokenizes (repeat "M"%char k ++ rest) (Z.of_nat k)
                           (REPEAT 1000 (Z.of_nat k))).
  { apply tokenizes_run; auto.
    - intros _. right. exists (prefix_digit t1). auto.
    - unfold valid_repeats. destruct (Z.eqb_spec (Z.of_nat k) 0); [lia|reflexivity]. }
  rewrite (parse_roman_number_first _ _ _ Htok) by lia.
  rewrite Nat2Z.id, skipn_repeat_app.
  (* one iteration of the loop, on the first token of [rest] *)
  cbn [parse_loop].
  rewrite (parse_roman_character_not_terminator _ _ Hhead).
  rewrite (consume_next_token_complete _ _ _ Htok1), Hadd.
  destruct (Z.gtb_spec m 0); [|lia]. cbn [negb].
  assert (valid_sequence (REPEAT 1000 (Z.of_nat k)) t1 = true) as ->.
  { unfold valid_sequence. cbn [Z.eqb orb].
    fold (prefix_digit t1). apply Z.gtb_gt. lia. }
  cbn [negb].
  (* the remaining iterations are those of the parse of [rest], shifted *)
  rewrite to_int_add_l.
  rewrite <- to_int_add_r with (y := 0 + token_value t1).
  rewrite parse_loop_shift.
  rewrite (parse_loop_fuel _ (S (length rest1))) by lia.
  rewrite Hrest. cbn [option_map shift_outcome token_value].
  do 3 f_equal. rewrite Z.add_0_l, to_int_add_l. reflexivity.
Qed.

(** A run of M that ends the line. *)
Lemma parse_roman_number_M_line k rest :
  (1 <= k)%nat ->
  Z.of_nat k <= int_max ->
  is_terminator (char_at rest 0) = true ->
  parse_roman_number (repeat "M"%char k ++ rest)
  = Some (Returns (success (to_int (1000 * Z.of_nat k)))).
Proof.
  intros Hk Hmax Hend.
  assert (Htok : tokenizes (repeat "M"%char k ++ rest) (Z.of_nat k)
                           (REPEAT 1000 (Z.of_nat k))).
  { apply tokenizes_run; auto.
    - intros E. rewrite E in Hend. discriminate Hend.
    - intros _. now left.
    - unfold valid_repeats. destruct (Z.eqb_spec (Z.of_nat k) 0); [lia|reflexivity]. }
  rewrite (parse_roman_number_first _ _ _ Htok) by lia.
  rewrite Nat2Z.id, skipn_repeat_app.
  cbn [parse_loop]. rewrite Hend. cbn [token_value].
  rewrite Z.add_0_l, (to_int_id (to_int _)) by apply to_int_range.
  reflexivity.
Qed.

Lemma legal_repeat_once d : roman_digit d -> legal_repeat d 1 = true.
Proof. unfold roman_digit. intros H. repeat destruct H as [H|H]; subst; reflexivity. Qed.

(** C3 (as it holds).  A run of [k] copies of a roman letter, with [k] no
    larger than [INT_MAX], is accepted by the tokenizer when the legal-repeats
    table lists the digit with that count and rejected with the repeat-count
    error when it does not; "VV", "LL", "DD" and "IIII" fail with that error;
    a run of M parses, alone on its line or in front of a numeral that parses
    and does not start with M, to the [int] sum of 1000 per M and the value of
    that numeral. *)
Theorem run_against_legal_repeats :
  (forall c d k rest,
      parse_roman_character c = Some d ->
      (1 <= k)%nat ->
      Z.of_nat k <= int_max ->
      char_at rest 0 <> c ->
      (k = 1%nat -> lonely_before d rest) ->
      (legal_repeat d (Z.of_nat k) = true ->
         consume_next_token (repeat c k ++ rest)
         = success (Z.of_nat k, REPEAT d (Z.of_nat k)))
      /\ (legal_repeat d (Z.of_nat k) = false ->
         consume_next_token (repeat c k ++ rest)
         = errorf (InvalidRepeatCount c (Z.of_nat k))))
  /\ (parse_roman_number (cstr "VV") = Some (Returns (errorf (InvalidRepeatCount "V" 2)))
      /\ parse_roman_number (cstr "LL") = Some (Returns (errorf (InvalidRepeatCount "L" 2)))
      /\ parse_roman_number (cstr "DD") = Some (Returns (errorf (InvalidRepeatCount "D" 2)))
      /\ parse_roman_number (cstr "IIII") = Some (Returns (errorf (InvalidRepeatCount "I" 4))))
  /\ (forall k rest,
        (1 <= k)%nat ->
        Z.of_nat k <= int_max ->
        is_terminator (char_at rest 0) = true ->
        parse_roman_number (repeat "M"%char k ++ rest)
        = Some (Returns (success (to_int (1000 * Z.of_nat k)))))
  /\ (forall k rest v,
        (1 <= k)%nat ->
        Z.of_nat k <= int_max ->
        char_at rest 0 <> "M"%char ->
        parse_roman_number rest = Some (Returns (success v)) ->
        parse_roman_number (repeat "M"%char k ++ rest)
        = Some (Returns (success (to_int (1000 * Z.of_nat k + v))))).
Proof.
  split; [|split; [repeat split|split]].
  - intros c d k rest Hc Hk Hmax Hrest Hlonely.
    pose proof (parse_roman_character_digit _ _ Hc) as Hd.
    pose proof (valid_repeats_legal d (Z.of_nat k) Hd ltac:(lia)) as Hlegal.
    split; intros L.
    + apply consume_next_token_complete, tokenizes_run; auto. congruence.
    + assert (2 <= k)%nat.
      { destruct (Nat.eq_dec k 1) as [->|]; [|lia].
        change (Z.of_nat 1) with 1 in L.
        rewrite (legal_repeat_once d Hd) in L. discriminate L. }
      rewrite (consume_run c d k rest) by auto.
      rewrite to_int_id by (unfold in_range, int_min, int_max in *; lia).
      now rewrite Hlegal, L.
  - exact parse_roman_number_M_line.
  - exact parse_roman_number_M_run.
Qed.

Lemma run_against_legal_repeats_witness :
  consume_next_token (cstr "XXXIV") = success (3, REPEAT 10 3)
  /\ consume_next_token (cstr "CCCCL") = errorf (InvalidRepeatCount "C" 4)
  /\ parse_roman_number (cstr "MMMMMM") = Some (Returns (success 6000))
  /\ parse_roman_number (cstr "MMMMCDXLIV") = Some (Returns (success 4444)).
Proof.
  destruct run_against_legal_repeats as (Hrun & _ & Hline & Hrest).
  split; [|split; [|split]].
  - apply (Hrun "X"%char 10 3%nat (cstr "IV"));
      reflexivity || discriminate || lia.
  - apply (Hrun "C"%char 100 4%nat (cstr "L"));
      reflexivity || discriminate || lia.
  - apply (Hline 6%nat []); reflexivity || discriminate || lia.
  - apply (Hrest 4%nat (cstr "CDXLIV") 444);
      reflexivity || discriminate || lia.
Defined.

(** C3, refuted as stated: the tokenizer accepts a run of 2^31 copies of I,
    which the table does not list, and rejects a run of 2^32 copies of M,
    which the table lists: the count it tests is the run length converted to
    [int].  And a single I in front of L is not accepted although the table
    lists I once: a smaller digit in front of a larger one is read as a
    pair. *)
Lemma run_outside_int_range :
  (consume_next_token (repeat "I"%char (Z.to_nat 2147483648))
   = success (-2147483648, REPEAT 1 (-2147483648))
   /\ legal_repeat 1 2147483648 = false)
  /\ (consume_next_token (repeat "M"%char (Z.to_nat 4294967296))
      = errorf (InvalidRepeatCount "M" 0)
      /\ legal_repeat 1000 4294967296 = true)
  /\ (consume_next_token (repeat "I"%char 1 ++ cstr "L")
      = errorf (InvalidPair "I" "L")
      /\ legal_repeat 1 1 = true).
Proof.
  split; [split|split; split].
  - exact consume_run_of_2_pow_31.
  - reflexivity.
  - remember (Z.to_nat 4294967296) as k eqn:Hk.
    assert (Hof : Z.of_nat k = 4294967296) by lia.
    rewrite <- (app_nil_r (repeat "M"%char k)).
    rewrite (consume_run "M" 1000 k []); [|reflexivity|lia|discriminate].
    rewrite Hof. reflexivity.
  - reflexivity.
  - reflexivity.
  - reflexivity.
Qed.

(** ** Further facts about the tokenizer and the loop *)

(** The loop never runs out of iterations: each one ends the call or moves
    the cursor forward, so [parse_roman_number] reaches an outcome on every
    string. *)
Theorem parse_roman_number_terminates str :
  exists o, parse_roman_number str = Some o.
Proof. apply parse_roman_number_total. Qed.

(** When the second character is neither a roman letter nor a terminator,
    the error message carries the first character: line 126 passes [str[0]]
    to [errorf]. *)
Theorem invalid_second_character_reports_first c0 c1 rest d :
  parse_roman_character c0 = Some d ->
  is_terminator c1 = false ->
  parse_roman_character c1 = None ->
  consume_next_token (c0 :: c1 :: rest) = errorf (InvalidCharacter c0).
Proof.
  intros H0 Hterm H1. unfold consume_next_token.
  rewrite char_at_cons0, char_at_cons1,
    (parse_roman_character_not_terminator _ _ H0), H0, Hterm, H1.
  reflexivity.
Qed.

Lemma invalid_second_character_reports_first_witness :
  consume_next_token (cstr "Xy") = errorf (InvalidCharacter "X")
  /\ error_message (InvalidCharacter "X") = Some "invalid character: X"%string.
Proof.
  split.
  - apply (invalid_second_character_reports_first "X" "y" [] 10); reflexivity.
  - reflexivity.
Defined.

(** ** Letters and digits *)

(** The seven letters and the seven digit values correspond one to one
    through [parse_roman_character] and [digit_to_roman]; any other value is
    printed as a question mark, which is not a roman letter. *)
Theorem letters_and_digits c d :
  (parse_roman_character c = Some d <-> roman_digit d /\ digit_to_roman d = c)
  /\ (~ roman_digit d ->
      digit_to_roman d = "?"%char
      /\ parse_roman_character (digit_to_roman d) = None).
Proof.
  split; [split|].
  - intros H. split.
    + now apply parse_roman_character_digit with (c := c).
    + now apply digit_to_roman_parse.
  - intros [Hd <-]. now apply parse_digit_to_roman.
  - unfold roman_digit, digit_to_roman. intros Hd.
    destruct (Z.eqb_spec d 1), (Z.eqb_spec d 5), (Z.eqb_spec d 10),
      (Z.eqb_spec d 50), (Z.eqb_spec d 100), (Z.eqb_spec d 500),
      (Z.eqb_spec d 1000); try (elim Hd; lia).
    split; reflexivity.
Qed.

(** ** The validators on arbitrary integers *)

(** [valid_pair] is the legal-pairs table on all integers; [valid_repeats] is
    the legal-repeats table on every digit and every count from 0 up, and
    below 0 it accepts every count for I, X, C and M. *)
Theorem validators_on_all_integers (a b : Z) :
  valid_pair a b = legal_pair a b
  /\ (0 <= b -> valid_repeats a b = legal_repeat a b)
  /\ (b < 0 ->
      valid_repeats a b = true <-> a = 1 \/ a = 10 \/ a = 100 \/ a = 1000).
Proof.
  split; [|split].
  - unfold valid_pair, legal_pair.
    destruct (Z.eqb_spec b 5), (Z.eqb_spec b 10), (Z.eqb_spec b 50),
      (Z.eqb_spec b 100), (Z.eqb_spec b 500), (Z.eqb_spec b 1000);
      try lia; cbn [orb andb];
      rewrite ?andb_false_r, ?andb_true_r, ?orb_false_r; try reflexivity;
      destruct (Z.eqb_spec a 1), (Z.eqb_spec a 10), (Z.eqb_spec a 100);
      try lia; reflexivity.
  - intros Hb. unfold valid_repeats, legal_repeat.
    destruct (Z.eqb_spec b 0) as [->|Hb0].
    + cbn. now rewrite !andb_false_r.
    + assert ((1 <=? b) = true) as -> by (apply Z.leb_le; lia).
      assert ((b <=? 3) = (b <? 4)) as ->
          by (destruct (Z.leb_spec b 3), (Z.ltb_spec b 4); reflexivity || lia).
      destruct (Z.eqb_spec a 5), (Z.eqb_spec a 50), (Z.eqb_spec a 500),
        (Z.eqb_spec a 1), (Z.eqb_spec a 10), (Z.eqb_spec a 100),
        (Z.eqb_spec a 1000); try lia; cbn [orb andb];
        rewrite ?andb_true_r, ?orb_false_r; reflexivity.
  - intros Hb. unfold valid_repeats.
    destruct (Z.eqb_spec b 0); [lia|].
    assert ((b =? 1) = false) as -> by (apply Z.eqb_neq; lia).
    assert ((b <? 4) = true) as -> by (apply Z.ltb_lt; lia).
    destruct (Z.eqb_spec a 5), (Z.eqb_spec a 50), (Z.eqb_spec a 500),
      (Z.eqb_spec a 1), (Z.eqb_spec a 10), (Z.eqb_spec a 100),
      (Z.eqb_spec a 1000); cbn [orb]; split; intros H;
      try discriminate H; try reflexivity; lia.
Qed.

Lemma validators_on_all_integers_witness :
  valid_pair 50 500 = legal_pair 50 500
  /\ (0 <= 4 -> valid_repeats 100 4 = legal_repeat 100 4)
  /\ (-7 < 0 ->
      valid_repeats 10 (-7) = true <-> 10 = 1 \/ 10 = 10 \/ 10 = 100 \/ 10 = 1000).
Proof.
  split; [|split].
  - exact (proj1 (validators_on_all_integers 50 500)).
  - exact (proj1 (proj2 (validators_on_all_integers 100 4))).
  - exact (proj2 (proj2 (validators_on_all_integers 10 (-7)))).
Defined.

(** ** Legal tokens *)

Lemma tokenizes_legal str n t :
  tokenizes str n t -> Z.of_nat (length str) <= int_max -> legal_token t.
Proof.
  intros H Hlen. pose proof (tokenizes_consumed_pos _ _ _ H Hlen) as Hpos.
  destruct H as [c d rest Hc _ | c d c1 d1 rest Hc _ _ | c d c1 d1 rest Hc Hc1 _ Hv
                | c d k rest Hc Hk _ Hv]; cbn [legal_token].
  - pose proof (parse_roman_character_digit _ _ Hc) as Hd.
    repeat split; auto; try lia.
    rewrite valid_repeats_legal by (auto; lia). now apply legal_repeat_once.
  - pose proof (parse_roman_character_digit _ _ Hc) as Hd.
    repeat split; auto; try lia.
    rewrite valid_repeats_legal by (auto; lia). now apply legal_repeat_once.
  - repeat split; eauto using parse_roman_character_digit.
  - repeat split; eauto using parse_roman_character_digit.
Qed.

Lemma legal_token_prefix t : legal_token t -> roman_digit (prefix_digit t).
Proof. destruct t; cbn; tauto. Qed.

(** A legal token is a run of M or one of the eighteen short tokens. *)
Lemma legal_token_cases t :
  legal_token t ->
  (exists count, t = REPEAT 1000 count /\ 0 < count) \/ In t short_tokens.
Proof.
  destruct t as [p s|d c]; cbn [legal_token].
  - intros (Hp & Hs & Hv). right. unfold roman_digit in *.
    repeat destruct Hp as [Hp|Hp]; repeat destruct Hs as [Hs|Hs]; subst;
      try discriminate Hv; cbn; tauto.
  - intros (Hd & Hc & Hv). unfold roman_digit in Hd.
    repeat destruct Hd as [Hd|Hd]; subst; unfold valid_repeats in Hv;
      cbn [Z.eqb Pos.eqb orb] in Hv;
      destruct (Z.eqb_spec c 0); try lia;
      try (apply Z.eqb_eq in Hv; subst; right; cbn; tauto);
      try (apply Z.ltb_lt in Hv;
           assert (c = 1 \/ c = 2 \/ c = 3) as [->|[->| ->]] by lia;
           right; cbn; tauto).
    left. eauto.
Qed.

Lemma valid_sequence_prefix first second :
  valid_sequence first second
  = valid_sequence (REPEAT (prefix_digit first) 1) second.
Proof. destruct first; reflexivity. Qed.

Lemma remainder_limit_prefix t :
  remainder_limit t = remainder_limit (REPEAT (prefix_digit t) 1).
Proof. destruct t; reflexivity. Qed.

(** No legal token is followed by a run of M. *)
Lemma valid_sequence_M_run first count :
  roman_digit (prefix_digit first) ->
  valid_sequence first (REPEAT 1000 count) = false.
Proof.
  rewrite valid_sequence_prefix. unfold roman_digit. intros H.
  repeat destruct H as [H|H]; rewrite H; reflexivity.
Qed.

(** After a token with prefix digit [p], a short token that is let through
    has a smaller prefix, and its value and whatever may follow it stay below
    what may follow [p]. *)
Lemma valid_sequence_short p t :
  roman_digit p ->
  In t short_tokens ->
  valid_sequence (REPEAT p 1) t = true ->
  prefix_digit t < p
  /\ 0 < token_value t
  /\ token_value t + remainder_limit t <= remainder_limit (REPEAT p 1).
Proof.
  unfold roman_digit. intros Hp Ht Hv.
  repeat destruct Hp as [Hp|Hp]; subst p;
    cbn [In short_tokens] in Ht;
    repeat destruct Ht as [Ht|Ht]; try contradiction; subst t;
    try discriminate Hv; vm_compute; repeat split; discriminate.
Qed.

(** ** The sequence rule and the table in its comment *)

(** Between legal tokens, [valid_sequence] accepts exactly the followers that
    the comment in its body lists for each of the thirteen kinds of token. *)
Theorem valid_sequence_matches_comment first second :
  legal_token first ->
  legal_token second ->
  valid_sequence first second = may_follow first second.
Proof.
  intros H1 H2.
  destruct (legal_token_cases _ H1) as [(c1 & -> & _)|In1];
    destruct (legal_token_cases _ H2) as [(c2 & -> & _)|In2];
    try reflexivity.
  - cbn [In short_tokens] in In2.
    repeat destruct In2 as [In2|In2]; try contradiction; subst; reflexivity.
  - cbn [In short_tokens] in In1.
    repeat destruct In1 as [In1|In1]; try contradiction; subst; reflexivity.
  - cbn [In short_tokens] in In1, In2.
    repeat destruct In1 as [In1|In1]; try contradiction; subst first;
      repeat destruct In2 as [In2|In2]; try contradiction; subst second;
      reflexivity.
Qed.

Lemma valid_sequence_matches_comment_witness :
  valid_sequence (REPEAT 50 1) (PAIR 10 50) = may_follow (REPEAT 50 1) (PAIR 10 50)
  /\ may_follow (REPEAT 50 1) (PAIR 10 50) = false.
Proof.
  split; [|reflexivity].
  apply (valid_sequence_matches_comment (REPEAT 50 1) (PAIR 10 50));
    cbn; unfold roman_digit; repeat split; lia.
Defined.

(** Along a numeral the tokens shrink: when [valid_sequence] lets a legal
    token follow another, its prefix digit and its value are both smaller than
    the prefix digit of the one before. *)
Theorem valid_sequence_decreases first second :
  legal_token first ->
  legal_token second ->
  valid_sequence first second = true ->
  prefix_digit second < prefix_digit first
  /\ 0 < token_value second < prefix_digit first.
Proof.
  intros H1 H2 Hv.
  pose proof (legal_token_prefix _ H1) as Hp.
  destruct (legal_token_cases _ H2) as [(c2 & -> & _)|In2].
  { rewrite valid_sequence_M_run in Hv by assumption. discriminate Hv. }
  rewrite valid_sequence_prefix in Hv.
  destruct (valid_sequence_short _ _ Hp In2 Hv) as (Hlt & Hpos & Hsum).
  split; [exact Hlt|]. split; [exact Hpos|].
  assert (0 < remainder_limit second).
  { cbn [In short_tokens] in In2.
    repeat destruct In2 as [In2|In2]; try contradiction; subst; reflexivity. }
  assert (remainder_limit (REPEAT (prefix_digit first) 1) <= prefix_digit first).
  { unfold roman_digit in Hp.
    repeat destruct Hp as [Hp|Hp]; rewrite Hp; vm_compute; discriminate. }
  lia.
Qed.

Lemma valid_sequence_decreases_witness :
  prefix_digit (PAIR 10 100) < prefix_digit (REPEAT 100 3)
  /\ 0 < token_value (PAIR 10 100) < prefix_digit (REPEAT 100 3).
Proof.
  apply (valid_sequence_decreases (REPEAT 100 3) (PAIR 10 100)).
  - cbn. unfold roman_digit. repeat split; lia.
  - cbn. unfold roman_digit. repeat split; lia.
  - reflexivity.
Defined.

(** ** Printing tokens *)

Lemma tokenizes_text str n t :
  tokenizes str n t -> 0 < n ->
  str = token_text t ++ skipn (Z.to_nat n) str.
Proof.
  intros [c d rest Hc _ | c d c1 d1 rest Hc _ _ | c d c1 d1 rest Hc Hc1 _ _
         | c d k rest Hc Hk _ _] Hpos; cbn [token_text].
  - now rewrite (digit_to_roman_parse _ _ Hc).
  - now rewrite (digit_to_roman_parse _ _ Hc).
  - now rewrite (digit_to_roman_parse _ _ Hc), (digit_to_roman_parse _ _ Hc1).
  - rewrite (digit_to_roman_parse _ _ Hc).
    pose proof (to_int_pos_le (Z.of_nat k) ltac:(lia) Hpos) as Hle.
    set (m := Z.to_nat (to_int (Z.of_nat k))) in *.
    assert (E : repeat c k = repeat c m ++ repeat c (k - m)).
    { rewrite <- repeat_app. f_equal. lia. }
    rewrite E, <- !app_assoc, skipn_repeat_app. reflexivity.
Qed.

Lemma token_text_length str n t :
  tokenizes str n t -> 0 < n -> Z.of_nat (length (token_text t)) = n.
Proof.
  intros [c d rest Hc _ | c d c1 d1 rest Hc _ _ | c d c1 d1 rest Hc Hc1 _ _
         | c d k rest Hc Hk _ _] Hpos; cbn [token_text];
    rewrite ?repeat_length; cbn [length]; lia.
Qed.

Lemma tokenizes_firstn str n t :
  tokenizes str n t -> 0 < n -> firstn (Z.to_nat n) str = token_text t.
Proof.
  intros H Hpos.
  pose proof (tokenizes_text _ _ _ H Hpos) as E.
  pose proof (token_text_length _ _ _ H Hpos) as L.
  rewrite E at 1. rewrite firstn_app.
  replace (Z.to_nat n - length (token_text t))%nat with 0%nat by lia.
  rewrite firstn_all2 by lia. cbn [firstn]. apply app_nil_r.
Qed.

Lemma sprint_token_text len n str t :
  tokenizes str n t -> 0 < n < int_max ->
  sprint_token len t = if n <? len then Some (token_text t) else None.
Proof.
  intros H Hn.
  assert (Hc : match t with REPEAT _ count => count = n | PAIR _ _ => n = 2 end).
  { destruct H; reflexivity. }
  destruct t as [p s|d c]; cbn [sprint_token token_text].
  - subst n. destruct (Z.ltb_spec len 3), (Z.ltb_spec 2 len); reflexivity || lia.
  - subst c. rewrite to_int_id by (unfold in_range, int_min, int_max in *; lia).
    destruct (Z.ltb_spec len (n + 1)), (Z.ltb_spec n len); reflexivity || lia.
Qed.

(** [sprint_token] undoes the tokenizer: for a token that
    [consume_next_token] has read with a consumed count [n] (positive and
    below [INT_MAX]), it writes back exactly the [n] characters consumed when
    the buffer has room for them and the final NUL, and writes nothing and
    returns [false] otherwise. *)
Theorem sprint_token_round_trip str n t len :
  consume_next_token str = success (n, t) ->
  0 < n < int_max ->
  (n < len -> sprint_token len t = Some (firstn (Z.to_nat n) str))
  /\ (len <= n -> sprint_token len t = None).
Proof.
  intros Htok Hn. apply consume_next_token_sound in Htok.
  rewrite (sprint_token_text len n str t Htok Hn).
  rewrite (tokenizes_firstn _ _ _ Htok) by lia.
  destruct (Z.ltb_spec n len); split; intros; reflexivity || lia.
Qed.

Lemma sprint_token_round_trip_witness :
  (3 < 32 -> sprint_token 32 (REPEAT 100 3) = Some (firstn (Z.to_nat 3) (cstr "CCCXC")))
  /\ (32 <= 3 -> sprint_token 32 (REPEAT 100 3) = None).
Proof.
  apply (sprint_token_round_trip (cstr "CCCXC") 3 (REPEAT 100 3) 32).
  - reflexivity.
  - unfold int_max. lia.
Defined.

(** The comment on [sprint_token] says that 4 bytes fit any token.  Of the
    tokens the tokenizer reads (from a string shorter than [INT_MAX]) the
    4-byte buffer fits all but the runs of four or more M. *)
Theorem four_bytes_fit_all_but_M_runs str n t :
  consume_next_token str = success (n, t) ->
  Z.of_nat (length str) < int_max ->
  sprint_token 4 t = None <-> exists count, 4 <= count /\ t = REPEAT 1000 count.
Proof.
  intros Htok Hlen. apply consume_next_token_sound in Htok.
  assert (Hlen' : Z.of_nat (length str) <= int_max) by lia.
  pose proof (tokenizes_consumed_pos _ _ _ Htok Hlen') as Hpos.
  pose proof (tokenizes_consumed_le _ _ _ Htok Hpos) as Hle.
  pose proof (tokenizes_legal _ _ _ Htok Hlen') as Hlegal.
  rewrite (sprint_token_text 4 n str t Htok) by lia.
  assert (Hc : match t with REPEAT _ count => count = n | PAIR _ _ => n = 2 end).
  { destruct Htok; reflexivity. }
  destruct (legal_token_cases _ Hlegal) as [(c & -> & Hc0)|Hin].
  - subst c. destruct (Z.ltb_spec n 4); split.
    + discriminate.
    + intros (c & Hc4 & [= <-]). lia.
    + eauto.
    + reflexivity.
  - assert (n < 4 /\ forall count, t <> REPEAT 1000 count) as [Hn4 Hne].
    { cbn [In short_tokens] in Hin.
      repeat destruct Hin as [Hin|Hin]; try contradiction; subst t;
        (split; [lia|discriminate]). }
    destruct (Z.ltb_spec n 4); [|lia]. split; [discriminate|].
    intros (c & _ & E). now elim (Hne c).
Qed.

Lemma four_bytes_fit_all_but_M_runs_witness :
  sprint_token 4 (REPEAT 1000 4) = None
  <-> exists count, 4 <= count /\ REPEAT 1000 4 = REPEAT 1000 count.
Proof.
  apply (four_bytes_fit_all_but_M_runs (cstr "MMMMCD") 4 (REPEAT 1000 4)).
  - reflexivity.
  - vm_compute. reflexivity.
Defined.

(** ** The buffers of the sequence error *)

Lemma scan_repeats_error c it n e :
  scan_repeats c it n = errorf e -> e = InvalidCharacter c.
Proof.
  revert n. induction it as [|x it IH]; intros n; cbn [scan_repeats].
  - discriminate.
  - destruct (c =? x)%char; [|discriminate].
    destruct (parse_roman_character c); [apply IH|]. now intros [= <-].
Qed.

(** The tokenizer itself never reports a sequence error. *)
Lemma consume_next_token_error str e :
  consume_next_token str = errorf e ->
  forall b1 b2, e <> InvalidSequence b1 b2.
Proof.
  unfold consume_next_token. intros H b1 b2 ->.
  destruct (is_terminator (char_at str 0)); [discriminate H|].
  destruct (parse_roman_character (char_at str 0)); [|discriminate H].
  destruct (is_terminator (char_at str 1)); [discriminate H|].
  destruct (parse_roman_character (char_at str 1)); [|discriminate H].
  destruct (_ <? _).
  { destruct (negb _); discriminate H. }
  destruct (_ >? _); [discriminate H|].
  destruct (scan_repeats _ _ _) as [it|e'] eqn:Hscan.
  - destruct (negb _); discriminate H.
  - apply scan_repeats_error in Hscan. congruence.
Qed.

(** What follows a repeat does not start with the repeated letter. *)
Lemma tokenizes_repeat_rest str n d count :
  tokenizes str n (REPEAT d count) ->
  Z.of_nat (length str) <= int_max ->
  char_at (skipn (Z.to_nat n) str) 0 <> digit_to_roman d.
Proof.
  intros H Hlen. remember (REPEAT d count) as t eqn:Et.
  destruct H as [c d0 rest Hc Hend | c d0 c1 d1 rest Hc Hc1 Hlt
                | c d0 c1 d1 rest Hc Hc1 Hlt Hv | c d0 k rest Hc Hk Hrest Hv];
    try discriminate Et; injection Et as <- _;
    rewrite (digit_to_roman_parse _ _ Hc).
  - change (skipn (Z.to_nat 1) (c :: rest)) with rest.
    intros E. rewrite E in Hend.
    rewrite (parse_roman_character_not_terminator _ _ Hc) in Hend.
    discriminate.
  - change (skipn (Z.to_nat 1) (c :: c1 :: rest)) with (c1 :: rest).
    rewrite char_at_cons0.
    intros ->. rewrite Hc in Hc1. injection Hc1 as ->. lia.
  - rewrite length_app, repeat_length in Hlen.
    rewrite to_int_id by (unfold in_range, int_min, int_max in *; lia).
    rewrite Nat2Z.id, skipn_repeat_app. assumption.
Qed.

Lemma valid_pair_1000 s : valid_pair 1000 s = false.
Proof.
  unfold valid_pair.
  destruct ((s =? 5) || (s =? 10)); [reflexivity|].
  destruct ((s =? 50) || (s =? 100)); [reflexivity|].
  destruct ((s =? 500) || (s =? 1000)); reflexivity.
Qed.

Lemma short_token_sprint t :
  In t short_tokens -> sprint_token 32 t <> None.
Proof.
  cbn [In short_tokens]. intros H.
  repeat destruct H as [H|H]; try contradiction; subst t; discriminate.
Qed.

Lemma parse_loop_sequence_error fuel str prev tally b1 b2 :
  Z.of_nat (length str) < int_max ->
  legal_token prev ->
  (prefix_digit prev = 1000 -> char_at str 0 <> "M"%char) ->
  parse_loop fuel str prev tally
  = Some (Returns (errorf (InvalidSequence b1 b2))) ->
  b1 <> None
  /\ (b2 = None -> exists p q, str = p ++ repeat "M"%char 32 ++ q).
Proof.
  revert str prev tally.
  induction fuel as [|fuel IH]; intros str prev tally Hlen Hprev HM; [discriminate|].
  cbn [parse_loop].
  destruct (is_terminator (char_at str 0)); [discriminate|].
  destruct (consume_next_token str) as [[n next]|e] eqn:Htok.
  2:{ intros [= ->]. now elim (consume_next_token_error _ _ Htok b1 b2). }
  apply consume_next_token_sound in Htok.
  assert (Hlen' : Z.of_nat (length str) <= int_max) by lia.
  pose proof (tokenizes_consumed_pos _ _ _ Htok Hlen') as Hpos.
  pose proof (tokenizes_consumed_le _ _ _ Htok Hpos) as Hle.
  pose proof (tokenizes_legal _ _ _ Htok Hlen') as Hnext.
  pose proof (tokenizes_head _ _ _ Htok) as Hhead.
  destruct (Z.gtb_spec n 0); [|lia]. cbn [negb].
  destruct (valid_sequence prev next) eqn:Hseq; cbn [negb].
  - (* accepted: the error comes from a later iteration *)
    assert (ptr_add str n = Some (skipn (Z.to_nat n) str)) as ->
        by (apply ptr_add_Some; split; [lia|reflexivity]).
    intros Hloop. apply IH in Hloop.
    + destruct Hloop as [H1 H2]. split; [exact H1|].
      intros Hb2. destruct (H2 Hb2) as (p & q & E).
      exists (firstn (Z.to_nat n) str ++ p), q.
      rewrite <- app_assoc, <- E. symmetry. apply firstn_skipn.
    + rewrite length_skipn. lia.
    + exact Hnext.
    + intros E. destruct (legal_token_cases _ Hnext) as [(c & -> & _)|Hin].
      * rewrite valid_sequence_M_run in Hseq
          by (now apply legal_token_prefix). discriminate Hseq.
      * exfalso. cbn [In short_tokens] in Hin.
        repeat destruct Hin as [Hin|Hin]; try contradiction; subst next;
          discriminate E.
  - (* rejected here *)
    intros [= <- <-]. split.
    + destruct (legal_token_cases _ Hprev) as [(c & -> & _)|Hin];
        [|now apply short_token_sprint].
      exfalso. specialize (HM eq_refl).
      assert (prefix_digit next <> 1000).
      { intros E. rewrite E in Hhead. apply HM.
        now apply parse_roman_character_inj with (d := 1000). }
      pose proof (legal_token_prefix _ Hnext) as Hp.
      unfold valid_sequence in Hseq. cbn [Z.eqb Pos.eqb orb] in Hseq.
      fold (prefix_digit next) in Hseq.
      destruct (Z.gtb_spec 1000 (prefix_digit next)); [discriminate|].
      unfold roman_digit in Hp. lia.
    + rewrite (sprint_token_text 32 n str next Htok) by lia.
      destruct (Z.ltb_spec n 32); [discriminate|]. intros _.
      destruct (legal_token_cases _ Hnext) as [(c & -> & _)|Hin].
      * pose proof (tokenizes_text _ _ _ Htok Hpos) as E.
        assert (c = n) as -> by (inversion Htok; reflexivity).
        cbn [token_text digit_to_roman Z.eqb] in E.
        exists [], (repeat "M"%char (Z.to_nat n - 32) ++ skipn (Z.to_nat n) str).
        cbn [app]. rewrite app_assoc, <- repeat_app.
        replace (32 + (Z.to_nat n - 32))%nat with (Z.to_nat n) by lia.
        exact E.
      * exfalso.
        assert (n < 4); [|lia].
        assert (Hc : match next with REPEAT _ count => count = n | PAIR _ _ => n = 2 end).
        { destruct Htok; reflexivity. }
        cbn [In short_tokens] in Hin.
        repeat destruct Hin as [Hin|Hin]; try contradiction; subst next; lia.
Qed.

(** The message " %s cannot be followed by %s" is built from two 32-byte
    buffers whose [sprint_token] results are not checked.  On an input
    shorter than [INT_MAX], the first buffer is always filled; the second one
    is left unwritten only when the rejected token is a run of 32 or more
    M. *)
Theorem sequence_error_buffers str b1 b2 :
  Z.of_nat (length str) < int_max ->
  parse_roman_number str = Some (Returns (errorf (InvalidSequence b1 b2))) ->
  b1 <> None
  /\ (b2 = None -> exists p q, str = p ++ repeat "M"%char 32 ++ q).
Proof.
  intros Hlen Hparse.
  assert (Hlen' : Z.of_nat (length str) <= int_max) by lia.
  destruct (consume_next_token str) as [[n prev]|e] eqn:Htok.
  2:{ unfold parse_roman_number in Hparse. rewrite Htok in Hparse.
      destruct (char_at str 0 =? NUL)%char; [discriminate|].
      injection Hparse as ->.
      now elim (consume_next_token_error _ _ Htok b1 b2). }
  apply consume_next_token_sound in Htok.
  pose proof (tokenizes_consumed_pos _ _ _ Htok Hlen') as Hpos.
  rewrite (parse_roman_number_first _ _ _ Htok Hpos) in Hparse.
  apply parse_loop_sequence_error in Hparse.
  - destruct Hparse as [H1 H2]. split; [exact H1|].
    intros Hb2. destruct (H2 Hb2) as (p & q & E).
    exists (firstn (Z.to_nat n) str ++ p), q.
    rewrite <- app_assoc, <- E. symmetry. apply firstn_skipn.
  - rewrite length_skipn. lia.
  - now apply tokenizes_legal with (str := str) (n := n).
  - intros E. destruct prev as [p s|d c]; cbn [prefix_digit] in E; subst.
    + pose proof (tokenizes_legal _ _ _ Htok Hlen') as (_ & _ & Hv).
      rewrite valid_pair_1000 in Hv. discriminate Hv.
    + now apply (tokenizes_repeat_rest _ _ _ _ Htok).
Qed.

Lemma sequence_error_buffers_witness :
  parse_roman_number (cstr "IV" ++ repeat "M"%char 32)
  = Some (Returns (errorf (InvalidSequence (Some (cstr "IV")) None)))
  /\ Some (cstr "IV") <> None
  /\ (@None cstring = None ->
      exists p q, cstr "IV" ++ repeat "M"%char 32 = p ++ repeat "M"%char 32 ++ q).
Proof.
  split; [reflexivity|].
  apply (sequence_error_buffers (cstr "IV" ++ repeat "M"%char 32)).
  - vm_compute. reflexivity.
  - reflexivity.
Defined.

(** ** Accepted lines are canonical numerals *)

Lemma cstring_eqb_eq a b : cstring_eqb a b = true -> a = b.
Proof.
  revert b. induction a as [|x a IH]; intros [|y b]; cbn; try discriminate.
  - reflexivity.
  - rewrite andb_true_iff. intros [Hxy Hab].
    apply Ascii.eqb_eq in Hxy. subst. f_equal. now apply IH.
Qed.

Lemma spells_sum_short_tokens : forallb spells_sum short_tokens = true.
Proof. vm_compute. reflexivity. Qed.

Lemma short_token_spells t r :
  In t short_tokens ->
  Z.of_nat r < remainder_limit t ->
  token_text t ++ to_roman r = to_roman (Z.to_nat (token_value t) + r).
Proof.
  intros Hin Hr.
  pose proof spells_sum_short_tokens as H.
  rewrite forallb_forall in H. specialize (H t Hin).
  unfold spells_sum in H. rewrite forallb_forall in H.
  apply cstring_eqb_eq, H, in_seq. lia.
Qed.

Lemma to_roman_thousands k r :
  (r < 1000)%nat ->
  to_roman (1000 * k + r) = repeat "M"%char k ++ to_roman r.
Proof.
  intros Hr. unfold to_roman.
  assert (E1 : ((1000 * k + r) / 1000 = k)%nat).
  { rewrite (Nat.mul_comm 1000 k), Nat.div_add_l by lia.
    rewrite Nat.div_small by lia. lia. }
  assert (E2 : (((1000 * k + r) / 100) mod 10 = (r / 100) mod 10)%nat).
  { replace (1000 * k + r)%nat with (10 * k * 100 + r)%nat by lia.
    rewrite Nat.div_add_l by lia.
    rewrite Nat.add_comm, (Nat.mul_comm 10 k). apply Nat.Div0.mod_add. }
  assert (E3 : (((1000 * k + r) / 10) mod 10 = (r / 10) mod 10)%nat).
  { replace (1000 * k + r)%nat with (100 * k * 10 + r)%nat by lia.
    rewrite Nat.div_add_l by lia.
    rewrite Nat.add_comm, (Nat.mul_comm 100 k).
    replace (k * 100)%nat with (k * 10 * 10)%nat by lia.
    apply Nat.Div0.mod_add. }
  assert (E4 : ((1000 * k + r) mod 10 = r mod 10)%nat).
  { replace (1000 * k + r)%nat with (r + (100 * k) * 10)%nat by lia.
    apply Nat.Div0.mod_add. }
  rewrite E1, E2, E3, E4, (Nat.div_small r 1000) by lia.
  reflexivity.
Qed.

Lemma line_of_app p (rest : cstring) :
  within_line p -> line_of (p ++ rest) = p ++ line_of rest.
Proof.
  induction 1 as [|c p Hc _ IH]; cbn [app line_of]; [reflexivity|].
  now rewrite Hc, IH.
Qed.

Lemma line_of_terminator (str : cstring) :
  is_terminator (char_at str 0) = true -> line_of str = [].
Proof.
  destruct str as [|c str]; [reflexivity|].
  rewrite char_at_cons0. cbn [line_of]. now intros ->.
Qed.

Lemma token_text_within_line t : legal_token t -> within_line (token_text t).
Proof.
  assert (R : forall d, roman_digit d -> is_terminator (digit_to_roman d) = false).
  { intros d Hd. apply parse_digit_to_roman in Hd.
    now apply parse_roman_character_not_terminator with (d := d). }
  unfold within_line.
  destruct t as [p s|d c]; cbn [legal_token token_text].
  - intros (Hp & Hs & _). repeat constructor; auto.
  - intros (Hd & _ & _). apply Forall_forall. intros x Hx.
    apply repeat_spec in Hx. subst x. auto.
Qed.

Lemma tokenizes_line str n t :
  tokenizes str n t ->
  Z.of_nat (length str) <= int_max ->
  line_of str = token_text t ++ line_of (skipn (Z.to_nat n) str).
Proof.
  intros Htok Hlen.
  pose proof (tokenizes_consumed_pos _ _ _ Htok Hlen) as Hpos.
  pose proof (tokenizes_legal _ _ _ Htok Hlen) as Hlegal.
  rewrite (tokenizes_text _ _ _ Htok Hpos) at 1.
  apply line_of_app. now apply token_text_within_line.
Qed.

Lemma remainder_limit_pos t : legal_token t -> 0 < remainder_limit t.
Proof.
  intros H. apply legal_token_prefix in H. rewrite remainder_limit_prefix.
  unfold roman_digit in H. repeat destruct H as [H|H]; rewrite H; reflexivity.
Qed.

(** Loop invariant: what the loop still adds to the tally is below the limit
    set by the previous token, and the rest of the line is the canonical
    numeral of that amount. *)
Lemma parse_loop_canonical fuel str prev tally v :
  legal_token prev ->
  0 <= tally ->
  tally + 1000 * Z.of_nat (length str) <= int_max ->
  parse_loop fuel str prev tally = Some (Returns (success v)) ->
  exists r : nat,
    v = tally + Z.of_nat r
    /\ Z.of_nat r < remainder_limit prev
    /\ line_of str = to_roman r.
Proof.
  revert str prev tally.
  induction fuel as [|fuel IH]; intros str prev tally Hprev Htally Hmax;
    [discriminate|].
  cbn [parse_loop].
  destruct (is_terminator (char_at str 0)) eqn:Hend.
  { intros [= <-]. exists 0%nat. split; [lia|]. split.
    - now apply remainder_limit_pos.
    - now apply line_of_terminator. }
  destruct (consume_next_token str) as [[n next]|e] eqn:Htok; [|discriminate].
  apply consume_next_token_sound in Htok.
  assert (Hlen : 1000 * Z.of_nat (length str) <= int_max) by lia.
  assert (Hlen' : Z.of_nat (length str) <= int_max)
    by (unfold int_max in *; lia).
  destruct (tokenizes_value _ _ _ Htok Hlen) as [Hn Hv].
  pose proof (tokenizes_legal _ _ _ Htok Hlen') as Hnext.
  destruct (Z.gtb_spec n 0); [|lia]. cbn [negb].
  destruct (valid_sequence prev next) eqn:Hseq; cbn [negb]; [|discriminate].
  assert (ptr_add str n = Some (skipn (Z.to_nat n) str)) as ->
      by (apply ptr_add_Some; split; [lia|reflexivity]).
  rewrite to_int_id by (unfold in_range, int_min, int_max in *; lia).
  intros Hloop.
  apply IH in Hloop; [|assumption|lia|rewrite length_skipn; lia].
  destruct Hloop as (r' & -> & Hr' & Hline).
  destruct (legal_token_cases _ Hnext) as [(c & -> & _)|Hin].
  { rewrite valid_sequence_M_run in Hseq by (now apply legal_token_prefix).
    discriminate Hseq. }
  rewrite valid_sequence_prefix in Hseq.
  destruct (valid_sequence_short _ _ (legal_token_prefix _ Hprev) Hin Hseq)
    as (_ & Hpos & Hsum).
  rewrite <- remainder_limit_prefix in Hsum.
  exists (Z.to_nat (token_value next) + r')%nat. split; [lia|]. split; [lia|].
  rewrite (tokenizes_line _ _ _ Htok Hlen'), Hline.
  now apply short_token_spells.
Qed.

Lemma tokenizes_repeat_count str n d count :
  tokenizes str n (REPEAT d count) -> count = n.
Proof.
  intros H. remember (REPEAT d count) as t eqn:Et.
  destruct H; try discriminate Et; now injection Et.
Qed.

(** A successful parse, on an input of at most 2147483 characters, returns
    the value whose canonical numeral is the line that was read. *)
Lemma parse_success_canonical str v :
  1000 * Z.of_nat (length str) <= int_max ->
  parse_roman_number str = Some (Returns (success v)) ->
  0 < v /\ line_of str = to_roman (Z.to_nat v).
Proof.
  intros Hlen Hparse.
  assert (Hlen' : Z.of_nat (length str) <= int_max)
    by (unfold int_max in *; lia).
  destruct (consume_next_token str) as [[n t]|e] eqn:Htok.
  2:{ unfold parse_roman_number in Hparse. rewrite Htok in Hparse.
      destruct (char_at str 0 =? NUL)%char; discriminate Hparse. }
  apply consume_next_token_sound in Htok.
  destruct (tokenizes_value _ _ _ Htok Hlen) as [Hn Hv].
  pose proof (tokenizes_legal _ _ _ Htok Hlen') as Hlegal.
  rewrite (parse_roman_number_first _ _ _ Htok) in Hparse by lia.
  rewrite to_int_id in Hparse by (unfold in_range, int_min, int_max in *; lia).
  apply parse_loop_canonical in Hparse;
    [|assumption|lia|rewrite length_skipn; lia].
  destruct Hparse as (r & -> & Hr & Hline).
  split; [lia|].
  rewrite (tokenizes_line _ _ _ Htok Hlen'), Hline.
  destruct (legal_token_cases _ Hlegal) as [(c & -> & Hc)|Hin].
  - cbn [token_text digit_to_roman Z.eqb].
    assert (E : token_value (REPEAT 1000 c) = 1000 * c).
    { cbn [token_value]. apply to_int_id.
      rewrite (tokenizes_repeat_count _ _ _ _ Htok).
      unfold in_range, int_min, int_max in *. lia. }
    rewrite E in *.
    change (remainder_limit (REPEAT 1000 c)) with 1000 in Hr.
    replace (Z.to_nat (0 + 1000 * c + Z.of_nat r))
      with (1000 * Z.to_nat c + r)%nat by lia.
    symmetry. apply to_roman_thousands. lia.
  - rewrite (short_token_spells _ _ Hin Hr). f_equal. lia.
Qed.

(** ** A line with and without its terminator *)

Lemma scan_repeats_end c d p t n :
  parse_roman_character c = Some d ->
  is_terminator t = true ->
  scan_repeats c (p ++ [t]) n = scan_repeats c p n.
Proof.
  intros Hc Ht. revert n. induction p as [|x p IH]; intros n; cbn [app scan_repeats].
  - destruct (Ascii.eqb_spec c t) as [->|_]; [|reflexivity].
    rewrite (parse_roman_character_not_terminator _ _ Hc) in Ht. discriminate.
  - destruct (c =? x)%char; [|reflexivity]. rewrite Hc. apply IH.
Qed.

Lemma is_terminator_NUL : is_terminator NUL = true.
Proof. reflexivity. Qed.

Lemma consume_next_token_end p t :
  is_terminator t = true ->
  p <> [] ->
  consume_next_token (p ++ [t]) = consume_next_token p.
Proof.
  intros Ht Hp. unfold consume_next_token.
  destruct p as [|c [|c1 p]]; [contradiction| |]; cbn [app].
  - rewrite !char_at_cons0, !char_at_cons1_tail, !char_at_cons0.
    change (char_at [] 0) with NUL. now rewrite Ht, is_terminator_NUL.
  - rewrite !char_at_cons0, !char_at_cons1. cbn [skipn].
    destruct (is_terminator c); [reflexivity|].
    destruct (parse_roman_character c) as [d|] eqn:Hc; [|reflexivity].
    now rewrite (scan_repeats_end c d p t 2 Hc Ht).
Qed.

Lemma ptr_add_line p n t :
  tokenizes p n t ->
  ptr_add p n = if 0 <? n then Some (skipn (Z.to_nat n) p) else None.
Proof.
  intros Htok. pose proof (tokenizes_nonzero _ _ _ Htok) as Hnz.
  destruct (Z.ltb_spec 0 n) as [Hpos|Hneg].
  - pose proof (tokenizes_consumed_le _ _ _ Htok Hpos).
    apply ptr_add_Some. split; [lia|reflexivity].
  - unfold ptr_add. destruct (Z.leb_spec 0 n); [lia|reflexivity].
Qed.

Lemma parse_loop_end fuel p t prev tally :
  within_line p ->
  is_terminator t = true ->
  parse_loop fuel (p ++ [t]) prev tally = parse_loop fuel p prev tally.
Proof.
  intros Hp Ht. revert p prev tally Hp.
  induction fuel as [|fuel IH]; intros p prev tally Hp; [reflexivity|].
  cbn [parse_loop].
  destruct p as [|c p'] eqn:Ep.
  { cbn [app]. rewrite char_at_cons0, Ht. reflexivity. }
  rewrite <- Ep in *.
  assert (Hne : p <> []) by (subst p; discriminate).
  assert (E0 : char_at (p ++ [t]) 0 = char_at p 0) by (subst p; reflexivity).
  rewrite E0, (consume_next_token_end p t Ht Hne).
  destruct (is_terminator (char_at p 0)); [reflexivity|].
  destruct (consume_next_token p) as [[value next]|e] eqn:Htok; [|reflexivity].
  pose proof Htok as Htok'.
  rewrite <- (consume_next_token_end p t Ht Hne) in Htok'.
  apply consume_next_token_sound in Htok, Htok'.
  rewrite (ptr_add_within p t [] value next Htok' (terminator_not_roman _ Ht)).
  rewrite (ptr_add_line p value next Htok).
  destruct (Z.gtb_spec value 0) as [Hpos|_]; cbn [negb]; [|reflexivity].
  destruct (valid_sequence prev next); cbn [negb]; [|reflexivity].
  destruct (Z.ltb_spec 0 value); [|lia].
  apply IH. now apply within_line_skipn.
Qed.

Lemma parse_roman_number_end p t :
  within_line p ->
  p <> [] ->
  is_terminator t = true ->
  parse_roman_number (p ++ [t]) = parse_roman_number p.
Proof.
  intros Hp Hne Ht. unfold parse_roman_number.
  assert (E0 : char_at (p ++ [t]) 0 = char_at p 0)
    by (destruct p; [contradiction|reflexivity]).
  rewrite E0, (consume_next_token_end p t Ht Hne).
  destruct (char_at p 0 =? NUL)%char; [reflexivity|].
  destruct (consume_next_token p) as [[value prev]|e] eqn:Htok; [|reflexivity].
  pose proof Htok as Htok'.
  rewrite <- (consume_next_token_end p t Ht Hne) in Htok'.
  apply consume_next_token_sound in Htok, Htok'.
  rewrite (ptr_add_within p t [] value prev Htok' (terminator_not_roman _ Ht)).
  rewrite (ptr_add_line p value prev Htok).
  destruct (Z.ltb_spec 0 value); [|reflexivity].
  rewrite parse_loop_end by (now apply within_line_skipn || assumption).
  apply parse_loop_fuel; rewrite ?length_app; cbn [length]; lia.
Qed.

Lemma terminator_is_optional_lemma p t rest :
  within_line p ->
  p <> [] ->
  is_terminator t = true ->
  parse_roman_number (p ++ t :: rest) = parse_roman_number p.
Proof.
  intros Hp Hne Ht.
  rewrite (parse_roman_number_line p t rest Hp Ht).
  now apply parse_roman_number_end.
Qed.

(** A line that is not empty gives the same outcome whether the string ends
    with it or goes on with a terminator and anything else: the newline that
    [fgets] leaves in the buffer changes nothing.  (The empty line is the
    exception: "input is empty" without the newline, "EOF" with it.) *)
Theorem terminator_is_optional p t rest :
  within_line p ->
  p <> [] ->
  is_terminator t = true ->
  parse_roman_number (p ++ t :: rest) = parse_roman_number p.
Proof. apply terminator_is_optional_lemma. Qed.

Lemma terminator_is_optional_witness :
  parse_roman_number (cstr "XLII" ++ LF :: cstr "IIII")
  = parse_roman_number (cstr "XLII")
  /\ parse_roman_number (cstr "XLII") = Some (Returns (success 42)).
Proof.
  split; [|reflexivity].
  apply (terminator_is_optional (cstr "XLII") LF (cstr "IIII")).
  - repeat constructor.
  - discriminate.
  - reflexivity.
Defined.

(** ** Every value has a numeral, and only one is accepted *)

Lemma remainder_checks_below_1000 : forallb remainder_checks (seq 0 1000) = true.
Proof. vm_compute. reflexivity. Qed.

Lemma remainder_facts r :
  (r < 1000)%nat ->
  (r = 0%nat -> to_roman r = [])
  /\ ((1 <= r)%nat ->
      parse_roman_number (to_roman r) = Some (Returns (success (Z.of_nat r))))
  /\ char_at (to_roman r) 0 <> "M"%char
  /\ Z.of_nat r <= 1000 * Z.of_nat (length (to_roman r)).
Proof.
  intros Hr. pose proof remainder_checks_below_1000 as H.
  rewrite forallb_forall in H. specialize (H r).
  rewrite in_seq in H. specialize (H ltac:(lia)).
  unfold remainder_checks in H. rewrite !andb_true_iff in H.
  destruct H as [[[[H1 H2] H3] _] _]. repeat split.
  - intros ->. reflexivity.
  - intros Hpos. destruct r; [lia|]. now apply returns_value_spec.
  - intros E. rewrite E in H2. discriminate H2.
  - now apply Z.leb_le.
Qed.

Lemma remainder_letters r :
  (r < 1000)%nat ->
  (length (to_roman r) <= 12)%nat /\ within_line (to_roman r).
Proof.
  intros Hr. pose proof remainder_checks_below_1000 as H.
  rewrite forallb_forall in H. specialize (H r).
  rewrite in_seq in H. specialize (H ltac:(lia)).
  unfold remainder_checks in H. rewrite !andb_true_iff in H.
  destruct H as [[_ H4] H5]. split.
  - now apply Nat.leb_le.
  - unfold within_line. apply Forall_forall. intros c Hc.
    rewrite forallb_forall in H5. specialize (H5 c Hc).
    now destruct (is_terminator c).
Qed.

Lemma to_roman_split v :
  to_roman v = repeat "M"%char (v / 1000) ++ to_roman (v mod 1000).
Proof.
  rewrite (Nat.div_mod_eq v 1000) at 1.
  apply to_roman_thousands. apply Nat.mod_upper_bound. lia.
Qed.

Lemma to_roman_value_le v :
  Z.of_nat v <= 1000 * Z.of_nat (length (to_roman v)).
Proof.
  rewrite to_roman_split, length_app, repeat_length.
  pose proof (Nat.mod_upper_bound v 1000 ltac:(lia)) as Hr.
  destruct (remainder_facts _ Hr) as (_ & _ & _ & Hle).
  pose proof (Nat.div_mod_eq v 1000). lia.
Qed.

Lemma parse_to_roman_any v :
  (1 <= v)%nat ->
  Z.of_nat v <= int_max ->
  parse_roman_number (to_roman v) = Some (Returns (success (Z.of_nat v))).
Proof.
  intros Hv Hmax.
  pose proof (Nat.mod_upper_bound v 1000 ltac:(lia)) as Hr.
  pose proof (Nat.div_mod_eq v 1000) as Hdm.
  destruct (remainder_facts _ Hr) as (Hzero & Hparse & HnotM & _).
  rewrite to_roman_split.
  set (k := (v / 1000)%nat) in *. set (r := (v mod 1000)%nat) in *.
  assert (Hid : to_int (Z.of_nat v) = Z.of_nat v)
    by (apply to_int_id; unfold in_range, int_min, int_max in *; lia).
  destruct (Nat.eq_dec k 0) as [Hk|Hk].
  - rewrite Hk. cbn [repeat app]. rewrite Hparse by lia. do 3 f_equal. lia.
  - destruct (Nat.eq_dec r 0) as [Hr0|Hr0].
    + rewrite (Hzero Hr0), parse_roman_number_M_line;
        [|lia|lia|reflexivity].
      rewrite <- Hid. do 4 f_equal. lia.
    + rewrite (parse_roman_number_M_run k (to_roman r) (Z.of_nat r));
        [|lia|lia|assumption|apply Hparse; lia].
      rewrite <- Hid. do 4 f_equal. lia.
Qed.

(** Round trip beyond 3999: with M repeated for the thousands, the numeral of
    every value from 1 to [INT_MAX] parses back to that value. *)
Theorem parse_to_roman_upto_int_max (v : nat) :
  (1 <= v)%nat ->
  Z.of_nat v <= int_max ->
  parse_roman_number (to_roman v) = Some (Returns (success (Z.of_nat v))).
Proof. apply parse_to_roman_any. Qed.

Lemma parse_to_roman_upto_int_max_witness :
  parse_roman_number (to_roman 4444) = Some (Returns (success 4444)).
Proof.
  apply (parse_to_roman_upto_int_max 4444).
  - lia.
  - vm_compute. discriminate.
Defined.

Lemma line_of_within (str : cstring) : within_line (line_of str).
Proof.
  unfold within_line. induction str as [|c str IH]; cbn [line_of]; [constructor|].
  destruct (is_terminator c) eqn:Hc; constructor; assumption.
Qed.

Lemma line_of_rest (str : cstring) :
  str = line_of str
  \/ exists t rest, is_terminator t = true /\ str = line_of str ++ t :: rest.
Proof.
  induction str as [|c str IH]; cbn [line_of]; [now left|].
  destruct (is_terminator c) eqn:Hc.
  - right. exists c, str. split; [assumption|reflexivity].
  - destruct IH as [E|(t & rest & Ht & E)].
    + left. now rewrite <- E.
    + right. exists t, rest. split; [assumption|]. cbn [app]. now rewrite <- E.
Qed.

Lemma line_of_length (str : cstring) : (length (line_of str) <= length str)%nat.
Proof.
  induction str as [|c str IH]; cbn [line_of length]; [lia|].
  destruct (is_terminator c); cbn [length]; lia.
Qed.

(** The outcome on a string whose line is not empty is the outcome on the
    line alone. *)
Lemma parse_roman_number_line_of str :
  line_of str <> [] ->
  parse_roman_number str = parse_roman_number (line_of str).
Proof.
  intros Hne. destruct (line_of_rest str) as [E|(t & rest & Ht & E)].
  - now rewrite <- E.
  - rewrite E at 1. apply terminator_is_optional_lemma; auto using line_of_within.
Qed.

(** On an input of at most 2147483 characters, [parse_roman_number] succeeds
    with the value [v] exactly when [v] is positive and the line read is the
    canonical numeral of [v] (M repeated for the thousands): non-canonical
    spellings are rejected, and two accepted lines with the same value are
    the same line. *)
Theorem parse_success_iff_canonical str v :
  1000 * Z.of_nat (length str) <= int_max ->
  parse_roman_number str = Some (Returns (success v))
  <-> 0 < v /\ line_of str = to_roman (Z.to_nat v).
Proof.
  intros Hlen. split.
  - now apply parse_success_canonical.
  - intros [Hv Hline].
    pose proof (to_roman_value_le (Z.to_nat v)) as Hle.
    pose proof (line_of_length str) as Hll.
    rewrite <- Hline in Hle.
    rewrite parse_roman_number_line_of.
    + rewrite Hline, parse_to_roman_any by lia. do 3 f_equal. lia.
    + intros E. rewrite E in Hle. cbn [length] in Hle. lia.
Qed.

Lemma parse_success_iff_canonical_witness :
  parse_roman_number (cstr "XLIX") = Some (Returns (success 49))
  <-> 0 < 49 /\ line_of (cstr "XLIX") = to_roman (Z.to_nat 49).
Proof.
  apply (parse_success_iff_canonical (cstr "XLIX") 49).
  vm_compute. discriminate.
Defined.

(** ** The read-parse-print loop *)

Lemma fgets_read_spec n stdin buff rest :
  fgets_read n stdin = (buff, rest) ->
  stdin = buff ++ rest /\ (length buff <= n)%nat.
Proof.
  revert stdin buff rest.
  induction n as [|n IH]; intros stdin buff rest; cbn [fgets_read].
  - intros [= <- <-]. split; [reflexivity|cbn; lia].
  - destruct stdin as [|c stdin].
    + intros [= <- <-]. split; [reflexivity|cbn; lia].
    + destruct (c =? LF)%char.
      * intros [= <- <-]. split; [reflexivity|cbn; lia].
      * destruct (fgets_read n stdin) as [b r] eqn:E.
        intros [= <- <-]. destruct (IH _ _ _ E) as [-> Hlen].
        split; [reflexivity|cbn [length]; lia].
Qed.

Lemma fgets_read_nonempty n c stdin :
  (1 <= length (fst (fgets_read (S n) (c :: stdin))))%nat.
Proof.
  cbn [fgets_read]. destruct (c =? LF)%char; [cbn; lia|].
  destruct (fgets_read n stdin). cbn. lia.
Qed.

Lemma fgets_size_spec n stdin buff rest :
  fgets (S (S n)) stdin = Some (buff, rest) ->
  stdin = buff ++ rest /\ (1 <= length buff <= S n)%nat.
Proof.
  unfold fgets. destruct stdin as [|c stdin]; [discriminate|].
  replace (S (S n) - 1)%nat with (S n) by lia.
  pose proof (fgets_read_nonempty n c stdin) as Hne.
  destruct (fgets_read (S n) (c :: stdin)) as [b r] eqn:E.
  intros [= <- <-]. cbn [fst] in Hne.
  destruct (fgets_read_spec _ _ _ _ E) as [Happ Hlen].
  split; [exact Happ|]. lia.
Qed.

Lemma fgets_spec stdin buff rest :
  fgets 255 stdin = Some (buff, rest) ->
  stdin = buff ++ rest /\ (1 <= length buff <= 254)%nat.
Proof. exact (fgets_size_spec 253 stdin buff rest). Qed.

Lemma fgets_read_line n line rest :
  ~ In LF line -> (length line < n)%nat ->
  fgets_read n (line ++ LF :: rest) = (line ++ [LF], rest).
Proof.
  revert n. induction line as [|c line IH]; intros n Hno Hlen.
  - destruct n; [cbn in Hlen; lia|]. cbn. reflexivity.
  - destruct n; [cbn in Hlen; lia|]. cbn [app fgets_read].
    destruct (Ascii.eqb_spec c LF) as [->|_]; [elim Hno; now left|].
    rewrite IH; [reflexivity| |cbn [length] in Hlen; lia].
    intros H. apply Hno. now right.
Qed.

Lemma fgets_read_full n buff rest :
  ~ In LF buff -> length buff = n ->
  fgets_read n (buff ++ rest) = (buff, rest).
Proof.
  revert n. induction buff as [|c buff IH]; intros n Hno Hlen.
  - cbn in Hlen. subst n. reflexivity.
  - destruct n; [discriminate Hlen|]. cbn [app fgets_read].
    destruct (Ascii.eqb_spec c LF) as [->|_]; [elim Hno; now left|].
    rewrite IH; [reflexivity| |now injection Hlen].
    intros H. apply Hno. now right.
Qed.

Lemma fgets_read_last n buff :
  ~ In LF buff -> (length buff <= n)%nat ->
  fgets_read n buff = (buff, []).
Proof.
  revert n. induction buff as [|c buff IH]; intros n Hno Hlen.
  - destruct n; reflexivity.
  - destruct n; [cbn in Hlen; lia|]. cbn [fgets_read].
    destruct (Ascii.eqb_spec c LF) as [->|_]; [elim Hno; now left|].
    rewrite IH; [reflexivity| |cbn [length] in Hlen; lia].
    intros H. apply Hno. now right.
Qed.

Lemma fgets_first_buffer buff rest :
  first_buffer buff rest ->
  fgets 255 (buff ++ rest) = Some (buff, rest) /\ buff <> [].
Proof.
  intros [(line & -> & Hno & Hlen) | [(Hno & Hlen) | (Hno & Hne & Hlen & ->)]].
  - split; [|now destruct line].
    rewrite <- app_assoc. cbn [app].
    unfold fgets. destruct (line ++ LF :: rest) eqn:E; [now destruct line|].
    rewrite <- E. f_equal. apply fgets_read_line; [assumption|cbn; lia].
  - assert (buff <> []) by (intros ->; discriminate Hlen).
    split; [|assumption].
    unfold fgets. destruct (buff ++ rest) eqn:E; [now destruct buff|].
    rewrite <- E. f_equal. now apply fgets_read_full.
  - split; [|assumption]. rewrite app_nil_r.
    unfold fgets. destruct buff eqn:E; [contradiction|].
    rewrite <- E in *. f_equal. apply fgets_read_last; [assumption|cbn; lia].
Qed.

Lemma prepend_app a b e : prepend (a ++ b) e = prepend a (prepend b e).
Proof. destruct e; cbn [prepend]; now rewrite app_assoc. Qed.

(** What was written before the loop starts stays in front of its output. *)
Lemma main_loop_prepend fuel stdin a b :
  main_loop fuel stdin (a ++ b)
  = option_map (prepend a) (main_loop fuel stdin b).
Proof.
  revert stdin b. induction fuel as [|fuel IH]; intros stdin b; [reflexivity|].
  cbn [main_loop]. rewrite <- app_assoc.
  destruct (fgets 255 stdin) as [[buff stdin']|]; [|reflexivity].
  destruct (parse_roman_number buff) as [[[v|e]| |]|]; try reflexivity.
  - rewrite <- app_assoc. apply IH.
  - destruct (error_message e); [|reflexivity].
    rewrite <- app_assoc. apply IH.
Qed.

Lemma main_loop_fuel f1 f2 stdin stdout :
  (length stdin < f1)%nat -> (length stdin < f2)%nat ->
  main_loop f1 stdin stdout = main_loop f2 stdin stdout.
Proof.
  revert f2 stdin stdout.
  induction f1 as [|f1 IH]; intros [|f2] stdin stdout H1 H2; try lia.
  cbn [main_loop].
  destruct (fgets 255 stdin) as [[buff stdin']|] eqn:E; [|reflexivity].
  destruct (fgets_spec _ _ _ E) as [-> Hlen]. rewrite length_app in *.
  destruct (parse_roman_number buff) as [[[v|e]| |]|]; try reflexivity.
  - apply IH; lia.
  - destruct (error_message e); [|reflexivity]. apply IH; lia.
Qed.

Lemma main_step buff rest :
  first_buffer buff rest ->
  main (buff ++ rest)
  = match parse_roman_number buff with
    | None => None
    | Some AssertionFailure => Some (AssertionAborts prompt)
    | Some OutOfBounds => Some (LeavesString prompt)
    | Some (Returns (errorf e)) =>
        match error_message e with
        | None => Some (PrintsUnwrittenBuffer prompt)
        | Some message =>
            option_map (prepend (prompt ++ invalid_line message)) (main rest)
        end
    | Some (Returns (success value)) =>
        option_map (prepend (prompt ++ result_line value)) (main rest)
    end.
Proof.
  intros Hfirst. destruct (fgets_first_buffer _ _ Hfirst) as [Hfgets Hne].
  assert (Hlen : (length rest < length (buff ++ rest))%nat).
  { rewrite length_app. destruct buff; [contradiction|cbn [length]; lia]. }
  unfold main at 1. cbn [main_loop]. rewrite Hfgets. cbn [app].
  destruct (parse_roman_number buff) as [[[v|e]| |]|]; try reflexivity.
  - rewrite <- (app_nil_r (prompt ++ result_line v)) at 1.
    rewrite main_loop_prepend. f_equal. apply main_loop_fuel; lia.
  - destruct (error_message e) as [m|]; [|reflexivity].
    rewrite <- (app_nil_r (prompt ++ invalid_line m)) at 1.
    rewrite main_loop_prepend. f_equal. apply main_loop_fuel; lia.
Qed.

Lemma to_roman_letters v :
  (length (to_roman v) <= v / 1000 + 12)%nat /\ within_line (to_roman v).
Proof.
  pose proof (Nat.mod_upper_bound v 1000 ltac:(lia)) as Hr.
  destruct (remainder_letters _ Hr) as [Hlen Hline].
  rewrite to_roman_split, length_app, repeat_length. split; [lia|].
  unfold within_line in *. apply Forall_app. split; [|assumption].
  apply Forall_forall. intros c Hc. apply repeat_spec in Hc. now subst c.
Qed.

Lemma within_line_no_LF p : within_line p -> ~ In LF p.
Proof.
  unfold within_line. rewrite Forall_forall. intros H Hin.
  specialize (H _ Hin). discriminate H.
Qed.

Lemma main_loop_returns fuel stdin stdout :
  (length stdin < fuel)%nat ->
  exists out,
    main_loop fuel stdin stdout = Some (Exits out)
    \/ main_loop fuel stdin stdout = Some (PrintsUnwrittenBuffer out).
Proof.
  revert stdin stdout.
  induction fuel as [|fuel IH]; intros stdin stdout Hfuel; [lia|].
  cbn [main_loop].
  destruct (fgets 255 stdin) as [[buff stdin']|] eqn:E; [|eauto].
  destruct (fgets_spec _ _ _ E) as [-> Hlen]. rewrite length_app in Hfuel.
  destruct (parse_roman_number_returns buff) as [[v|e] ->].
  { unfold int_max. lia. }
  - apply IH. lia.
  - destruct (error_message e); [|eauto]. apply IH. lia.
Qed.

(** Whatever is typed, [main] comes to an end, and the parser it calls never
    fails its assertion nor moves its cursor out of the buffer: [fgets] hands
    it at most 254 characters.  The run exits at the end of the input, unless
    an error message is printed from a buffer that was never written. *)
Theorem main_ends stdin :
  exists out,
    main stdin = Some (Exits out)
    \/ main stdin = Some (PrintsUnwrittenBuffer out).
Proof. apply main_loop_returns. lia. Qed.

(** The second case of [main_ends] happens: a line of IV and 32 M. *)
Example main_prints_unwritten_buffer :
  main (cstr "IV" ++ repeat "M"%char 32 ++ [LF])
  = Some (PrintsUnwrittenBuffer prompt).
Proof. reflexivity. Qed.

(** [main] answers the input buffer by buffer: the output for an input that
    starts with one buffer of [fgets] is the prompt, the line for the parse of
    that buffer, and then the output for the rest of the input. *)
Theorem main_answers_first_buffer buff rest :
  first_buffer buff rest ->
  (forall value,
      parse_roman_number buff = Some (Returns (success value)) ->
      main (buff ++ rest)
      = option_map (prepend (prompt ++ result_line value)) (main rest))
  /\ (forall e message,
      parse_roman_number buff = Some (Returns (errorf e)) ->
      error_message e = Some message ->
      main (buff ++ rest)
      = option_map (prepend (prompt ++ invalid_line message)) (main rest)).
Proof.
  intros Hfirst. pose proof (main_step buff rest Hfirst) as H. split.
  - intros v Hv. now rewrite Hv in H.
  - intros e m He Hm. now rewrite He, Hm in H.
Qed.

Lemma main_answers_first_buffer_witness :
  (forall value,
      parse_roman_number [LF] = Some (Returns (success value)) ->
      main ([LF] ++ cstr "IV")
      = option_map (prepend (prompt ++ result_line value)) (main (cstr "IV")))
  /\ (forall e message,
      parse_roman_number [LF] = Some (Returns (errorf e)) ->
      error_message e = Some message ->
      main ([LF] ++ cstr "IV")
      = option_map (prepend (prompt ++ invalid_line message)) (main (cstr "IV"))).
Proof.
  apply (main_answers_first_buffer [LF] (cstr "IV")).
  left. exists []. split; [reflexivity|]. split; [intros []|cbn; lia].
Defined.

(** Typing the numeral of a value from 1 to 241999 and a newline gives one
    result line with that value, between two prompts. *)
Theorem main_round_trip (v : nat) :
  1 <= Z.of_nat v <= 241999 ->
  main (to_roman v ++ [LF])
  = Some (Exits (prompt ++ result_line (Z.of_nat v) ++ prompt)).
Proof.
  intros Hv.
  destruct (to_roman_letters v) as [Hlen Hline].
  assert (Hdiv : (v / 1000 < 242)%nat).
  { apply Nat.Div0.div_lt_upper_bound. lia. }
  assert (Hne : to_roman v <> []).
  { pose proof (to_roman_value_le v). intros E. rewrite E in *. cbn in *. lia. }
  assert (Hparse : parse_roman_number (to_roman v ++ [LF])
                   = Some (Returns (success (Z.of_nat v)))).
  { rewrite parse_roman_number_end by (assumption || reflexivity).
    apply parse_to_roman_any; [lia|]. unfold int_max. lia. }
  rewrite <- (app_nil_r (to_roman v ++ [LF])).
  rewrite main_step.
  - rewrite Hparse. cbn [main main_loop fgets length option_map prepend app].
    now rewrite <- app_assoc.
  - left. exists (to_roman v). split; [reflexivity|].
    split; [now apply within_line_no_LF|lia].
Qed.

Lemma main_round_trip_witness :
  main (to_roman 1999 ++ [LF])
  = Some (Exits (prompt ++ result_line 1999 ++ prompt)).
Proof. apply (main_round_trip 1999). lia. Defined.

(** A line of more than 253 letters is not read whole: of 254 + m copies of
    M and a newline, [main] parses the first 254 as one numeral and the other
    m, with the newline, as the next one. *)
Theorem main_splits_long_line (m : nat) :
  (1 <= m <= 253)%nat ->
  main (repeat "M"%char (254 + m) ++ [LF])
  = Some (Exits (prompt ++ result_line 254000
                 ++ prompt ++ result_line (1000 * Z.of_nat m) ++ prompt)).
Proof.
  intros Hm.
  assert (HnoLF : forall k, ~ In LF (repeat "M"%char k)).
  { intros k Hin. apply repeat_spec in Hin. discriminate Hin. }
  rewrite repeat_app, <- app_assoc.
  rewrite main_step.
  2:{ right. left. split; [apply HnoLF|apply repeat_length]. }
  assert (parse_roman_number (repeat "M"%char 254)
          = Some (Returns (success 254000))) as -> by (vm_compute; reflexivity).
  rewrite <- (app_nil_r (repeat "M"%char m ++ [LF])).
  rewrite main_step.
  2:{ left. exists (repeat "M"%char m). split; [reflexivity|].
      split; [apply HnoLF|rewrite repeat_length; lia]. }
  rewrite (parse_roman_number_M_line m [LF]);
    [|lia|unfold int_max; lia|reflexivity].
  rewrite to_int_id by (unfold in_range, int_min, int_max; lia).
  cbn [main main_loop fgets length option_map prepend].
  rewrite <- !app_assoc. reflexivity.
Qed.

Lemma main_splits_long_line_witness :
  main (repeat "M"%char (254 + 2) ++ [LF])
  = Some (Exits (prompt ++ result_line 254000
                 ++ prompt ++ result_line (1000 * Z.of_nat 2) ++ prompt)).
Proof. apply (main_splits_long_line 2). lia. Defined.

(** ** The errors for an empty input *)

Lemma consume_next_token_errors str e :
  consume_next_token str = errorf e ->
  (e = EndOfInput /\ is_terminator (char_at str 0) = true)
  \/ (is_terminator (char_at str 0) = false
      /\ e <> EndOfInput /\ e <> EmptyInput).
Proof.
  unfold consume_next_token.
  destruct (is_terminator (char_at str 0)).
  { intros [= <-]. now left. }
  intros H. right. split; [reflexivity|].
  destruct (parse_roman_character (char_at str 0)).
  2:{ injection H as <-. split; discriminate. }
  destruct (is_terminator (char_at str 1)); [discriminate H|].
  destruct (parse_roman_character (char_at str 1)).
  2:{ injection H as <-. split; discriminate. }
  destruct (_ <? _).
  { destruct (negb _); [|discriminate H]. injection H as <-. split; discriminate. }
  destruct (_ >? _); [discriminate H|].
  destruct (scan_repeats _ _ _) as [it|e'] eqn:Hscan.
  - destruct (negb _); [|discriminate H]. injection H as <-. split; discriminate.
  - apply scan_repeats_error in Hscan. injection H as <-. subst e'.
    split; discriminate.
Qed.

Lemma parse_loop_errors fuel str prev tally e :
  parse_loop fuel str prev tally = Some (Returns (errorf e)) ->
  e <> EndOfInput /\ e <> EmptyInput.
Proof.
  revert str prev tally.
  induction fuel as [|fuel IH]; intros str prev tally; [discriminate|].
  cbn [parse_loop].
  destruct (is_terminator (char_at str 0)) eqn:Hend; [discriminate|].
  destruct (consume_next_token str) as [[n next]|e'] eqn:Htok.
  - destruct (negb (n >? 0)); [discriminate|].
    destruct (negb (valid_sequence prev next)).
    { intros [= <-]. split; discriminate. }
    destruct (ptr_add str n); [apply IH|discriminate].
  - intros [= <-].
    destruct (consume_next_token_errors _ _ Htok) as [[_ H]|(_ & H)];
      [congruence|exact H].
Qed.

(** The two errors for an empty input tell how the string starts: "input is
    empty" is returned exactly for a string that starts with NUL (the empty
    string), and "EOF" exactly for a string that starts with a newline;
    neither is returned once a first token has been read. *)
Theorem empty_input_errors str :
  (parse_roman_number str = Some (Returns (errorf EmptyInput))
   <-> char_at str 0 = NUL)
  /\ (parse_roman_number str = Some (Returns (errorf EndOfInput))
      <-> char_at str 0 = LF).
Proof.
  unfold parse_roman_number.
  destruct (Ascii.eqb_spec (char_at str 0) NUL) as [E|Hnul].
  { rewrite E. split; split; try discriminate; reflexivity. }
  destruct (consume_next_token str) as [[n prev]|e] eqn:Htok.
  - assert (Hstart : is_terminator (char_at str 0) = false).
    { apply consume_next_token_sound, tokenizes_head in Htok.
      now apply parse_roman_character_not_terminator in Htok. }
    assert (HLF : char_at str 0 <> LF).
    { intros E. rewrite E in Hstart. discriminate Hstart. }
    destruct (ptr_add str n) as [str'|].
    + split; split; intros H; try contradiction;
        apply parse_loop_errors in H; tauto.
    + split; split; intros H; try contradiction; discriminate H.
  - destruct (consume_next_token_errors _ _ Htok) as [[-> Hterm]|(Hterm & H1 & H2)].
    + assert (char_at str 0 = LF).
      { unfold is_terminator in Hterm. apply orb_true_iff in Hterm.
        destruct Hterm as [H|H]; apply Ascii.eqb_eq in H; congruence. }
      split; split; intros H'; try contradiction; try discriminate H'; auto.
    + assert (HLF : char_at str 0 <> LF).
      { intros E. rewrite E in Hterm. discriminate Hterm. }
      split; split; intros H'; try contradiction;
        injection H' as ->; contradiction.
Qed.

(** An empty line typed at the prompt is answered with "Invalid input: EOF",
    not with "input is empty": [fgets] leaves the newline in the buffer and
    the entry check of the parser looks for NUL only. *)
Theorem main_empty_line rest :
  main (LF :: rest)
  = option_map (prepend (prompt ++ cstr "Invalid input: EOF" ++ [LF]))
               (main rest).
Proof.
  change (LF :: rest) with ([LF] ++ rest).
  rewrite main_step.
  - reflexivity.
  - left. exists []. split; [reflexivity|]. split; [intros []|cbn; lia].
Qed.

(** ** Error messages and the message buffer *)

Lemma error_message_text e :
  error_message e = option_map (vsnprintf 255) (error_text e).
Proof. destruct e as [| | | | |[b1|] [b2|]]; reflexivity. Qed.

Lemma string_length_append (a b : string) :
  String.length (a ++ b)%string = (String.length a + String.length b)%nat.
Proof. induction a as [|c a IH]; cbn; [reflexivity|now rewrite IH]. Qed.

Lemma string_of_list_ascii_length (l : list ascii) :
  String.length (string_of_list_ascii l) = length l.
Proof. induction l as [|c l IH]; cbn; [reflexivity|now rewrite IH]. Qed.

Lemma substring_all n (s : string) :
  (String.length s <= n)%nat -> substring 0 n s = s.
Proof.
  revert n. induction s as [|c s IH]; intros n Hlen.
  - destruct n; reflexivity.
  - destruct n; [cbn in Hlen; lia|]. cbn. f_equal. apply IH. cbn in Hlen. lia.
Qed.

Lemma counts_are_short : forallb count_is_short (seq 0 255) = true.
Proof. vm_compute. reflexivity. Qed.

Lemma format_int_short n :
  0 <= n <= 254 -> (String.length (format_int n) <= 3)%nat.
Proof.
  intros Hn. pose proof counts_are_short as H.
  rewrite forallb_forall in H. specialize (H (Z.to_nat n)).
  rewrite in_seq in H. specialize (H ltac:(lia)).
  unfold count_is_short in H. rewrite Z2Nat.id in H by lia.
  now apply Nat.leb_le.
Qed.

Lemma scan_repeats_bound c it n k :
  scan_repeats c it n = success k -> (k <= n + length it)%nat.
Proof.
  revert n. induction it as [|x it IH]; intros n; cbn [scan_repeats length].
  - intros [= <-]. lia.
  - destruct (c =? x)%char.
    + destruct (parse_roman_character c); [|discriminate].
      intros H. apply IH in H. lia.
    + intros [= <-]. lia.
Qed.

Lemma consume_next_token_short_error str e :
  (length str <= 254)%nat ->
  consume_next_token str = errorf e -> short_error e.
Proof.
  intros Hlen. unfold consume_next_token.
  destruct (is_terminator (char_at str 0)); [now intros [= <-]|].
  destruct (parse_roman_character (char_at str 0)); [|now intros [= <-]].
  destruct (is_terminator (char_at str 1)); [discriminate|].
  destruct (parse_roman_character (char_at str 1)); [|now intros [= <-]].
  destruct (_ <? _).
  { destruct (negb _); [now intros [= <-]|discriminate]. }
  destruct (_ >? _); [discriminate|].
  destruct (scan_repeats _ _ _) as [k|e'] eqn:Hscan.
  - apply scan_repeats_bound in Hscan.
    pose proof (length_skipn 2 str) as Hskip.
    destruct (negb _); [|discriminate]. intros [= <-]. cbn [short_error].
    assert (length str >= 2 \/ length str < 2)%nat as [H2|H2] by lia.
    + rewrite to_int_id; unfold in_range, int_min, int_max; lia.
    + destruct str as [|a [|b str]]; cbn [length] in *; try lia;
        cbn [skipn length] in *;
        rewrite to_int_id; unfold in_range, int_min, int_max; lia.
  - apply scan_repeats_error in Hscan. subst e'. now intros [= <-].
Qed.

(** A token read from at most 254 characters prints into at most 31
    characters, if it prints. *)
Lemma sprint_token_short str n t text :
  tokenizes str n t ->
  (length str <= 254)%nat ->
  sprint_token 32 t = Some text -> (length text <= 31)%nat.
Proof.
  intros Htok Hlen.
  assert (Hlen' : Z.of_nat (length str) <= int_max) by (unfold int_max; lia).
  pose proof (tokenizes_consumed_pos _ _ _ Htok Hlen') as Hpos.
  pose proof (tokenizes_consumed_le _ _ _ Htok Hpos) as Hle.
  rewrite (sprint_token_text 32 n str t Htok) by (unfold int_max; lia).
  destruct (Z.ltb_spec n 32); [|discriminate].
  intros [= <-]. pose proof (token_text_length _ _ _ Htok Hpos). lia.
Qed.

Lemma parse_loop_short_error fuel str prev tally e :
  (length str <= 254)%nat ->
  (forall text, sprint_token 32 prev = Some text -> (length text <= 31)%nat) ->
  parse_loop fuel str prev tally = Some (Returns (errorf e)) ->
  short_error e.
Proof.
  revert str prev tally.
  induction fuel as [|fuel IH]; intros str prev tally Hlen Hprev; [discriminate|].
  cbn [parse_loop].
  destruct (is_terminator (char_at str 0)); [discriminate|].
  destruct (consume_next_token str) as [[n next]|e'] eqn:Htok.
  2:{ intros [= <-]. now apply consume_next_token_short_error with (str := str). }
  apply consume_next_token_sound in Htok.
  destruct (negb (n >? 0)); [discriminate|].
  destruct (negb (valid_sequence prev next)).
  { intros [= <-]. cbn [short_error]. split; [exact Hprev|].
    intros text. apply sprint_token_short with (str := str) (n := n); assumption. }
  destruct (ptr_add str n) as [str'|] eqn:Hadd; [|discriminate].
  apply ptr_add_Some in Hadd. destruct Hadd as [Hn ->].
  apply IH.
  - rewrite length_skipn. lia.
  - intros text. apply sprint_token_short with (str := str) (n := n); assumption.
Qed.

Lemma short_error_text e m :
  short_error e -> error_text e = Some m -> (String.length m <= 86)%nat.
Proof.
  destruct e as [| |c|c0 c1|c n|[b1|] [b2|]]; cbn [short_error error_text];
    intros Hshort [= <-]; try (cbn; lia).
  - pose proof (format_int_short n Hshort).
    cbn [append String.length].
    rewrite ?string_length_append. cbn [String.length]. lia.
  - destruct Hshort as [H1 H2].
    specialize (H1 _ eq_refl). specialize (H2 _ eq_refl).
    cbn [append String.length].
    rewrite ?string_length_append, ?string_of_list_ascii_length.
    cbn [append String.length].
    rewrite ?string_length_append, ?string_of_list_ascii_length. lia.
Qed.

(** [errorf] prints into a buffer of 255 bytes.  For an input of at most 254
    characters, which is all [main] ever passes, every error message of the
    parser has at most 86 characters and is stored whole. *)
Theorem error_messages_are_whole str e m :
  (length str <= 254)%nat ->
  parse_roman_number str = Some (Returns (errorf e)) ->
  error_text e = Some m ->
  (String.length m <= 86)%nat /\ error_message e = Some m.
Proof.
  intros Hlen Hparse Htext.
  assert (Hshort : short_error e).
  { unfold parse_roman_number in Hparse.
    destruct (char_at str 0 =? NUL)%char.
    { now injection Hparse as <-. }
    destruct (consume_next_token str) as [[n prev]|e'] eqn:Htok.
    - apply consume_next_token_sound in Htok.
      destruct (ptr_add str n) as [str'|] eqn:Hadd; [|discriminate].
      apply ptr_add_Some in Hadd. destruct Hadd as [Hn ->].
      apply parse_loop_short_error in Hparse; [assumption| |].
      + rewrite length_skipn. lia.
      + intros text. apply sprint_token_short with (str := str) (n := n);
          assumption.
    - injection Hparse as <-.
      now apply consume_next_token_short_error with (str := str). }
  pose proof (short_error_text _ _ Hshort Htext) as Hm.
  split; [exact Hm|].
  rewrite error_message_text, Htext. cbn [option_map]. f_equal.
  unfold vsnprintf. apply substring_all. cbn. lia.
Qed.

Lemma error_messages_are_whole_witness :
  (String.length "character C cannot appear 4 times in a row" <= 86)%nat
  /\ error_message (InvalidRepeatCount "C" 4)
     = Some "character C cannot appear 4 times in a row"%string.
Proof.
  apply (error_messages_are_whole (cstr "MCCCC") (InvalidRepeatCount "C" 4)).
  - cbn. lia.
  - reflexivity.
  - reflexivity.
Defined.
